(** * Books API: the concurrency-gated repository over a relational store

    A shallow embedding of [main.py]: the [Book] entity, the five
    operations of [BookRepository], the routes of [Api] and the
    [lifespan] hook.

    The repository code is a sequence of library calls (asyncio's
    semaphore, SQLAlchemy's sessions).  Each operation is embedded as a
    finite tree of such calls, [prog]; the trees are then given two
    meanings:
    - [run], one caller at a time, against a store with a table, a
      unit of work per session and an oracle of storage faults;
    - [step], many callers interleaved at their suspension points, with
      the answers of the storage engine left to the environment.

    An id is a Python [int], hence a [Z].  The store holds 64-bit ids
    and its driver binds no other integer ([int64], [bindable]); the
    rows of the model are not bounded, and [next_rowid] follows SQLite
    up to the last id ([max_rowid_free]). *)

From stdpp Require Import gmap strings list.
From Stdlib Require Import ZArith Lia.

Set Default Proof Using "Type".

(** ** Data model *)

(** A column of SQL type [String]: a Python [str], or [None] for NULL. *)
Abbreviation value := (option string).

(** [class Book(Base)]: the mapped object.  [id] is [None] until the
    object has been flushed (a transient object).  The program builds
    a Book in one place only, [create_book], and without an id; a Book
    with an id stands here for an object that came out of the store.
    An object built by hand with an id, which a session would refuse to
    delete as never persisted, is not among what this type stands for. *)
Record Book : Type := mkBook {
  Book_id : option Z;
  title : value;
  author : value;
  genre : value
}.

(** A row of the table [books]; [id] is the primary key, never NULL. *)
Record row : Type := mkRow {
  row_id : Z;
  row_title : value;
  row_author : value;
  row_genre : value
}.

Abbreviation table := (list row).

#[global] Instance Book_eq_dec : EqDecision Book.
Proof. solve_decision. Defined.

#[global] Instance row_eq_dec : EqDecision row.
Proof. solve_decision. Defined.

(** What the ORM builds from a selected row. *)
Definition load (r : row) : Book :=
  mkBook (Some (row_id r)) (row_title r) (row_author r) (row_genre r).

(** The three attributes of a Book an update can name. *)
Inductive attribute : Type := Title | Author | Genre.

Definition keyword (c : attribute) : string :=
  match c with
  | Title => "title"
  | Author => "author"
  | Genre => "genre"
  end.

Definition getattr (b : Book) (c : attribute) : value :=
  match c with
  | Title => title b
  | Author => author b
  | Genre => genre b
  end.

(** The statements the repository sends. *)
Inductive sql : Type :=
| SqlInsert (r : row)                              (* flush of [session.add] *)
| SqlSelect (where_id : option Z)                  (* [select(Book)], [.where(Book.id == id)] *)
| SqlUpdate (where_id : Z) (fields : gmap string value)
                                                   (* [update(Book).where(Book.id == id).values(fields)] *)
| SqlDelete (where_id : Z).                        (* flush of [session.delete] *)

(** A statement the engine carried out, with the number of rows it
    touched. *)
Record executed : Type := mkExecuted {
  statement : sql;
  rowcount : nat
}.

(** What a call can raise. *)
Inductive exn : Type :=
| StorageFault            (* the engine failed: connection, I/O, constraint *)
| CompileError            (* unconsumed column names in [values] *)
| UnmappedInstanceError   (* [session.delete(None)] *)
| InvalidRequestError     (* the session cannot do this with the object *)
| MultipleResultsFound    (* [one_or_none] on several rows *)
| TypeError               (* a keyword argument bound twice *)
| OverflowError.          (* an integer the driver cannot bind *)

(** ** SQL over a table *)

(** The three text columns, by the name [values] knows them by. *)
Definition text_columns : list string := ["title"; "author"; "genre"]%string.

(** SQLite's rowid for a row inserted without one: one more than the
    largest in the table, 1 in an empty table.  That is its rule while
    the largest is below 2^63 - 1, the last id there is; the operations
    below reach that id only after as many insertions.  With that id in
    use SQLite draws an unused id at random instead, which this function
    does not follow: [max_rowid_free] marks the tables it is exact on. *)
Definition next_rowid (t : table) : Z :=
  match t with
  | [] => 1
  | r :: t' => 1 + foldr Z.max (row_id r) (row_id <$> t')
  end.

Definition sql_select (where_id : option Z) (t : table) : table :=
  match where_id with
  | None => t
  | Some n => filter (λ r, row_id r = n) t
  end.

(** SET: a column named in [fields] takes the value given, the others
    keep theirs. *)
Definition set_values (fields : gmap string value) (r : row) : row :=
  mkRow (row_id r)
        (default (row_title r) (fields !! "title"%string))
        (default (row_author r) (fields !! "author"%string))
        (default (row_genre r) (fields !! "genre"%string)).

Definition sql_update (n : Z) (fields : gmap string value) (t : table) : table :=
  (λ r, if decide (row_id r = n) then set_values fields r else r) <$> t.

Definition sql_delete (n : Z) (t : table) : table :=
  filter (λ r, row_id r ≠ n) t.

Definition matching (n : Z) (t : table) : nat :=
  length (filter (λ r, row_id r = n) t).

(** The row an object is inserted as; [None] when its explicit id is
    taken already (the primary key constraint). *)
Definition row_of_new (b : Book) (t : table) : option row :=
  match Book_id b with
  | None => Some (mkRow (next_rowid t) (title b) (author b) (genre b))
  | Some n =>
      if decide (matching n t = 0)
      then Some (mkRow n (title b) (author b) (genre b))
      else None
  end.

(** The tables on which [next_rowid] is SQLite's rule: those that do
    not hold the last id. *)
Definition max_rowid_free (t : table) : Prop :=
  ∀ r, r ∈ t → (row_id r < 2 ^ 63 - 1)%Z.

(** The integers SQLite holds and its driver binds: signed, 64 bits. *)
Definition int64 (n : Z) : bool := ((- 2 ^ 63 <=? n) && (n <? 2 ^ 63))%Z.

(** The ids a statement names. *)
Definition sql_ids (q : sql) : list Z :=
  match q with
  | SqlInsert r => [row_id r]
  | SqlSelect where_id => option_list where_id
  | SqlUpdate n _ => [n]
  | SqlDelete n => [n]
  end.

(** The ids the store has held or been sent: those of the rows of [t]
    and those named by the statements of [log]. *)
Definition known (t : table) (log : list executed) : list Z :=
  (row_id <$> t) ++ (log ≫= λ x, sql_ids (statement x)).

(** Whether the driver binds [n] as the parameter of a statement.  It
    refuses, with an OverflowError, an integer outside the 64 bits.
    The rows of this model are not bounded in their ids; so that a
    table no store can hold is not held against the driver, an id the
    store knows already is taken as one it binds.  On a store whose
    known ids are within the 64 bits, that is on every store there is,
    this is the driver's check and nothing else ([bindable_int64]). *)
Definition bindable (t : table) (log : list executed) (n : Z) : bool :=
  int64 n || bool_decide (n ∈ known t log).

(** The primary key: no two rows share an id. *)
Definition primary_key (t : table) : Prop := NoDup (row_id <$> t).

(** ** Programs: trees of library calls *)

(** The calls on a session.  Each may raise. *)
Inductive storageE : Type → Type :=
| SessionBegin : storageE unit                     (* enter [self.session.begin()] *)
| SessionAdd (b : Book) : storageE unit            (* [session.add(book)] *)
| SessionStream (where_id : option Z) : storageE (list Book)
                                                   (* [session.stream(query)] and its scalars *)
| SessionExecute (where_id : Z) (fields : gmap string value) : storageE unit
                                                   (* [session.execute(query)] *)
| SessionDelete (b : option Book) : storageE unit  (* [session.delete(book)] *)
| SessionRollback : storageE unit                  (* [session.rollback()] *)
| SessionExit (raising : bool) : storageE unit.    (* leave [self.session.begin()] *)

Inductive prog (A : Type) : Type :=
| Ret (a : A)
| Raise (e : exn)
| Acquire (k : prog A)                             (* [semaphore.acquire()] *)
| Release (k : prog A)                             (* [semaphore.release()] *)
| Storage {X : Type} (q : storageE X) (k : exn + X → prog A).

Arguments Ret {A} a.
Arguments Raise {A} e.
Arguments Acquire {A} k.
Arguments Release {A} k.
Arguments Storage {A X} q k.

(** Run [p]; leave through [normal] when it returns and through
    [exceptional] when it raises. *)
Fixpoint on_exit {A B} (p : prog A) (normal : A → prog B)
    (exceptional : exn → prog B) : prog B :=
  match p with
  | Ret a => normal a
  | Raise e => exceptional e
  | Acquire k => Acquire (on_exit k normal exceptional)
  | Release k => Release (on_exit k normal exceptional)
  | Storage q k => Storage q (λ r, on_exit (k r) normal exceptional)
  end.

#[global] Instance prog_ret : MRet prog := λ A a, Ret a.
#[global] Instance prog_bind : MBind prog := λ A B f p, on_exit p f Raise.

(** [try: p  except: handler] -- a bare [except], it catches everything. *)
Definition try_except {A} (p handler : prog A) : prog A :=
  on_exit p Ret (λ _, handler).

(** An awaited call on the session: its answer, or the exception. *)
Definition await {X} (q : storageE X) : prog X :=
  Storage q (λ r, match r with inl e => Raise e | inr x => Ret x end).

(** [async with self.semaphore: body]: [__aenter__] acquires,
    [__aexit__] releases, however the body is left. *)
Definition async_with_semaphore {A} (body : prog A) : prog A :=
  Acquire (on_exit body (λ a, Release (Ret a)) (λ e, Release (Raise e))).

(** [async with self.session.begin() as session: body]: a session and
    its transaction are opened; leaving the block commits, or rolls back
    when the body raised, and the exception goes on. *)
Definition async_with_session_begin {A} (body : prog A) : prog A :=
  await SessionBegin ;;
  on_exit body
    (λ a, await (SessionExit false) ;; Ret a)
    (λ e, await (SessionExit true) ;; Raise e).

(** [result.scalars().all()] *)
Definition scalars_all (result : list Book) : prog (list Book) := Ret result.

(** [result.scalars().one_or_none()] *)
Definition scalars_one_or_none (result : list Book) : prog (option Book) :=
  match result with
  | [] => Ret None
  | [b] => Ret (Some b)
  | _ => Raise MultipleResultsFound
  end.

(** ** BookRepository *)

Definition create_book (title author genre : value) : prog bool :=
  async_with_semaphore (
    try_except
      (let book := mkBook None title author genre in
       async_with_session_begin (await (SessionAdd book)) ;;
       Ret true)
      (async_with_session_begin (await SessionRollback) ;;
       Ret false)).

Definition get_books : prog (list Book) :=
  async_with_semaphore (
    books ← async_with_session_begin (
      result ← await (SessionStream None);
      scalars_all result);
    Ret books).

Definition get_book_by_id (id : Z) : prog (option Book) :=
  async_with_semaphore (
    book ← async_with_session_begin (
      result ← await (SessionStream (Some id));
      scalars_one_or_none result);
    Ret book).

(** [def update_book(self, id, **fields)]: a keyword named like a
    parameter is refused at the call, before the body runs. *)
Definition parameter_names : list string := ["self"; "id"]%string.

Definition binds_twice (fields : gmap string value) : bool :=
  bool_decide (Exists (λ k, is_Some (fields !! k)) parameter_names).

Definition update_book (id : Z) (fields : gmap string value) : prog bool :=
  if binds_twice fields then Raise TypeError else
  async_with_semaphore (
    try_except
      (async_with_session_begin (await (SessionExecute id fields)) ;;
       Ret true)
      (async_with_session_begin (await SessionRollback) ;;
       Ret false)).

Definition delete_book (book : option Book) : prog bool :=
  async_with_semaphore (
    async_with_session_begin (await (SessionDelete book)) ;;
    Ret true).

(** ** The store, one caller at a time *)

(** A session's unit of work: the table as its transaction sees it,
    the objects added and the ids marked deleted since the last flush,
    and whether its transaction is still active. *)
Record session_state : Type := mkSession {
  work : table;
  pending : list Book;
  doomed : list Z;
  active : bool
}.

(** [semaphore]: the value of [self.semaphore]; [books]: the committed
    table; [session]: the session of the block being executed;
    [faults]: for each coming round trip to the engine, whether it
    fails (none left: it does not); [trace]: the statements carried
    out so far. *)
Record world : Type := mkWorld {
  semaphore : nat;
  books : table;
  session : option session_state;
  faults : list bool;
  trace : list executed
}.

Definition set_semaphore (n : nat) (w : world) : world :=
  mkWorld n (books w) (session w) (faults w) (trace w).

Definition set_books (t : table) (w : world) : world :=
  mkWorld (semaphore w) t (session w) (faults w) (trace w).

Definition set_session (s : option session_state) (w : world) : world :=
  mkWorld (semaphore w) (books w) s (faults w) (trace w).

Definition set_trace (l : list executed) (w : world) : world :=
  mkWorld (semaphore w) (books w) (session w) (faults w) l.

Definition next_fault (w : world) : bool * world :=
  match faults w with
  | [] => (false, w)
  | f :: fs => (f, mkWorld (semaphore w) (books w) (session w) fs (trace w))
  end.

Definition fault_free (w : world) : bool := forallb negb (faults w).

(** The flush: INSERT what was added, then DELETE what was marked.  A
    DELETE that matches no row only warns. *)
Fixpoint flush_new (bs : list Book) (t : table) (log : list executed)
    : option (table * list executed) :=
  match bs with
  | [] => Some (t, log)
  | b :: bs' =>
      match row_of_new b t with
      | Some r => flush_new bs' (t ++ [r]) (log ++ [mkExecuted (SqlInsert r) 1])
      | None => None
      end
  end.

Fixpoint flush_deleted (ns : list Z) (t : table) (log : list executed)
    : table * list executed :=
  match ns with
  | [] => (t, log)
  | n :: ns' =>
      flush_deleted ns' (sql_delete n t)
        (log ++ [mkExecuted (SqlDelete n) (matching n t)])
  end.

Definition flush (s : session_state) (log : list executed)
    : option (session_state * list executed) :=
  '(t, log) ← flush_new (pending s) (work s) log;
  let '(t, log) := flush_deleted (doomed s) t log in
  Some (mkSession t [] [] (active s), log).

(** A round trip to the engine on the current session: it needs an
    active transaction, it may fail, and what is pending is flushed
    first. *)
Definition round_trip (w : world) : (exn + session_state) * world :=
  match session w with
  | Some s =>
      if active s then
        let '(f, w) := next_fault w in
        if f then (inl StorageFault, w)
        else match flush s (trace w) with
             | Some (s, log) => (inr s, set_trace log w)
             | None => (inl StorageFault, w)
             end
      else (inl InvalidRequestError, w)
  | None => (inl InvalidRequestError, w)
  end.

(** [values(fields)] compiles when every key names a column it can
    set; the id column takes no text, and no caller can name it (see
    [update_book]). *)
Definition consumed (fields : gmap string value) : bool :=
  bool_decide (map_Forall (λ k _, k ∈ text_columns) fields).

(** An UPDATE with nothing to set is not a statement the engine
    accepts. *)
Definition no_values (fields : gmap string value) : bool :=
  bool_decide (fields = ∅).

Definition log (q : sql) (n : nat) (w : world) : world :=
  set_trace (trace w ++ [mkExecuted q n]) w.

(** What the session answers to each call.  A query or an update
    reaches the engine in this order: the connection (a fault), the
    statement ([CompileError], or a fault for an empty SET), its
    parameter (an OverflowError), its effect.  [session.delete] sends
    nothing before the flush; what it is given with an id is an object
    that came out of the store (see [Book]), whose id needs no check. *)
Definition respond {X} (q : storageE X) (w : world) : (exn + X) * world :=
  match q in storageE X return (exn + X) * world with
  | SessionBegin =>
      (inr (), set_session (Some (mkSession (books w) [] [] true)) w)
  | SessionAdd b =>
      match session w with
      | Some s =>
          if active s
          then (inr (), set_session
                          (Some (mkSession (work s) (pending s ++ [b]) (doomed s) true)) w)
          else (inl InvalidRequestError, w)
      | None => (inl InvalidRequestError, w)
      end
  | SessionStream where_id =>
      match round_trip w with
      | (inr s, w) =>
          if forallb (bindable (work s) (trace w)) (option_list where_id) then
            let rows := sql_select where_id (work s) in
            (inr (load <$> rows),
             log (SqlSelect where_id) (length rows) (set_session (Some s) w))
          else (inl OverflowError, set_session (Some s) w)
      | (inl e, w) => (inl e, w)
      end
  | SessionExecute n fields =>
      match round_trip w with
      | (inr s, w) =>
          if negb (consumed fields) then (inl CompileError, set_session (Some s) w)
          else if no_values fields then (inl StorageFault, set_session (Some s) w)
          else if negb (bindable (work s) (trace w) n)
          then (inl OverflowError, set_session (Some s) w)
          else
            (inr (),
             log (SqlUpdate n fields) (matching n (work s))
               (set_session
                  (Some (mkSession (sql_update n fields (work s)) [] [] true)) w))
      | (inl e, w) => (inl e, w)
      end
  | SessionDelete ob =>
      match ob with
      | None => (inl UnmappedInstanceError, w)
      | Some b =>
          match Book_id b, session w with
          | Some n, Some s =>
              if active s
              then (inr (), set_session
                              (Some (mkSession (work s) (pending s) (doomed s ++ [n]) true)) w)
              else (inl InvalidRequestError, w)
          | _, _ => (inl InvalidRequestError, w)
          end
      end
  | SessionRollback =>
      match session w with
      | Some s => (inr (), set_session (Some (mkSession (books w) [] [] false)) w)
      | None => (inl InvalidRequestError, w)
      end
  | SessionExit raising =>
      if raising then (inr (), set_session None w)
      else
        match session w with
        | Some s =>
            if active s then
              match round_trip w with
              | (inr s, w) => (inr (), set_session None (set_books (work s) w))
              | (inl e, w) => (inl e, set_session None w)
              end
            else (inr (), set_session None w)
        | None => (inr (), w)
        end
  end.

(** How a call ends for its caller. *)
Inductive result (A : Type) : Type :=
| Returned (a : A)
| Raised (e : exn)
| Blocked.                 (* waiting for a permit nobody will release *)

Arguments Returned {A} a.
Arguments Raised {A} e.
Arguments Blocked {A}.

Fixpoint run {A} (p : prog A) (w : world) : result A * world :=
  match p with
  | Ret a => (Returned a, w)
  | Raise e => (Raised e, w)
  | Acquire k =>
      match semaphore w with
      | O => (Blocked, w)
      | S n => run k (set_semaphore n w)
      end
  | Release k => run k (set_semaphore (S (semaphore w)) w)
  | Storage q k => let '(r, w) := respond q w in run (k r) w
  end.

(** ** Api: the routes *)

Module Api.

Definition get_book (id : Z) : prog (option Book) :=
  book ← get_book_by_id id;
  Ret book.

Definition get_books : prog (list Book) :=
  books ← get_books;
  Ret books.

Definition create_book (title author genre : string) : prog bool :=
  ret ← create_book (Some title) (Some author) (Some genre);
  Ret ret.

(** [title: str = None, author: str = None, genre: str = None]: a
    parameter the request leaves out is [None]; all three go into
    [fields]. *)
Definition update_book (id : Z) (title author genre : value) : prog bool :=
  let fields : gmap string value :=
    {[ "title"%string := title; "author"%string := author; "genre"%string := genre ]} in
  ret ← update_book id fields;
  Ret ret.

Definition delete_book (id : Z) : prog unit :=
  book ← get_book_by_id id;
  delete_book book ;;
  Ret ().

End Api.

(** ** Many callers *)

(** [asyncio.Semaphore(50)] *)
Definition permits : nat := 50.

(** A call of one of the five operations, and what it hands back. *)
Inductive call : Type :=
| CreateBook (title author genre : value)
| GetBooks
| GetBookById (id : Z)
| UpdateBook (id : Z) (fields : gmap string value)
| DeleteBook (book : option Book).

Inductive pyobj : Type :=
| PyBool (b : bool)
| PyBook (b : option Book)
| PyList (bs : list Book).

#[global] Instance prog_fmap : FMap prog := λ A B f p, on_exit p (λ a, Ret (f a)) Raise.

Definition operation (c : call) : prog pyobj :=
  match c with
  | CreateBook title author genre => PyBool <$> create_book title author genre
  | GetBooks => PyList <$> get_books
  | GetBookById id => PyBook <$> get_book_by_id id
  | UpdateBook id fields => PyBool <$> update_book id fields
  | DeleteBook book => PyBool <$> delete_book book
  end.

(** A task: what is left of its call, and the permits it holds. *)
Record task : Type := mkTask {
  held : nat;
  code : prog pyobj
}.

(** The semaphore's value and the tasks in flight. *)
Record system : Type := mkSystem {
  sem_value : nat;
  tasks : list task
}.

(** What the storage engine answers is up to the environment. *)
Definition answers : Type := ∀ X, storageE X → exn + X.

(** The event loop resumes task [who]; if the task is at a call on its
    session, the call is answered by [answer]. *)
Record event : Type := mkEvent {
  who : nat;
  answer : answers
}.

(** One step of a task: up to its next suspension point.  A task at
    [acquire] cannot be resumed while the value is 0; a finished task
    cannot be resumed. *)
Definition step_task (v : nat) (a : answers) (t : task) : option (nat * task) :=
  match code t with
  | Ret _ | Raise _ => None
  | Acquire k =>
      match v with
      | O => None
      | S v' => Some (v', mkTask (S (held t)) k)
      end
  | Release k => Some (S v, mkTask (pred (held t)) k)
  | Storage q k => Some (v, mkTask (held t) (k (a _ q)))
  end.

Definition step (s : system) (e : event) : option system :=
  t ← tasks s !! who e;
  '(v, t') ← step_task (sem_value s) (answer e) t;
  Some (mkSystem v (<[who e := t']> (tasks s))).

Fixpoint steps (s : system) (es : list event) : option system :=
  match es with
  | [] => Some s
  | e :: es' => s' ← step s e; steps s' es'
  end.

Definition start (calls : list call) : system :=
  mkSystem permits ((λ c, mkTask 0 (operation c)) <$> calls).

(** A task is in its storage-facing critical section when its next
    step is a call on its session. *)
Definition at_storage (t : task) : bool :=
  match code t with
  | Storage _ _ => true
  | _ => false
  end.

Definition finished (t : task) : bool :=
  match code t with
  | Ret _ | Raise _ => true
  | _ => false
  end.

Definition executing (s : system) : nat :=
  length (filter (λ t, at_storage t = true) (tasks s)).

(** The tasks between their [acquire] and their [release]. *)
Definition inside (s : system) : nat :=
  length (filter (λ t, 0 < held t) (tasks s)).

Definition holding (s : system) : nat :=
  sum_list_with held (tasks s).

(** The discipline of the gate, read off a program: started with [h]
    permits in hand it ends with [h'], it acquires only with none in
    hand, and every call on a session is made with exactly one. *)
Fixpoint gate {A} (h h' : nat) (p : prog A) : Prop :=
  match p with
  | Ret _ | Raise _ => h = h'
  | Acquire k => h = 0 ∧ gate 1 h' k
  | Release k => h = 1 ∧ gate 0 h' k
  | Storage _ k => h = 1 ∧ ∀ r, gate 1 h' (k r)
  end.

(** A task that follows the discipline from the permits it holds. *)
Definition disciplined (t : task) : Prop := gate (held t) 0 (code t).

(** The invariant of the gate: the value of the semaphore and the
    permits in the hands of the tasks add up to the capacity, and every
    task follows the discipline. *)
Definition gate_invariant (s : system) : Prop :=
  sem_value s + holding s = permits ∧ Forall disciplined (tasks s).

(** The primary key holds of the committed table and of the table the
    open session works on. *)
Definition keyed (w : world) : Prop :=
  primary_key (books w) ∧ ∀ s, session w = Some s → primary_key (work s).

(** ** The process: repositories and their engine handles *)

Module Lifecycle.

(** An engine handle, named by its rank among the handles the process
    has created. *)
Abbreviation handle := nat.

(** [BookRepository.__init__] builds its own semaphore, its own
    engine with [create_async_engine], and a session factory bound to
    that engine. *)
Record BookRepository : Type := mkBookRepository {
  engine : handle
}.

Record Api : Type := mkApi {
  repo : BookRepository
}.

(** [engines]: how many handles were created; [schema]: the handles
    [create_all] ran through; [used]: the handles the operations on
    books ran through, one entry per request; [disposed]: the handles
    disposed of. *)
Record process : Type := mkProcess {
  engines : nat;
  schema : list handle;
  used : list handle;
  disposed : list handle
}.

(** [BookRepository()] *)
Definition BookRepository_init (p : process) : BookRepository * process :=
  (mkBookRepository (engines p),
   mkProcess (S (engines p)) (schema p) (used p) (disposed p)).

(** [create_table]: [create_all] through [self.engine] *)
Definition create_table (self : BookRepository) (p : process) : process :=
  mkProcess (engines p) (schema p ++ [engine self]) (used p) (disposed p).

(** [close]: [self.engine.dispose()] *)
Definition close (self : BookRepository) (p : process) : process :=
  mkProcess (engines p) (schema p) (used p) (disposed p ++ [engine self]).

(** [Api.__init__]: [self.repo = BookRepository()] *)
Definition Api_init (p : process) : Api * process :=
  let '(r, p) := BookRepository_init p in (mkApi r, p).

(** A request to any route: an operation of [self.repo], on a session
    of its factory, hence through its engine. *)
Definition request (self : Api) (p : process) : process :=
  mkProcess (engines p) (schema p) (used p ++ [engine (repo self)]) (disposed p).

(** [lifespan], up to the [yield]: [await BookRepository().create_table()] *)
Definition lifespan_startup (p : process) : process :=
  let '(r, p) := BookRepository_init p in create_table r p.

(** [lifespan], after the [yield]: [await BookRepository().close()] *)
Definition lifespan_shutdown (p : process) : process :=
  let '(r, p) := BookRepository_init p in close r p.

(** The life of the process: the module body runs [Api(app).api()],
    the server runs the lifespan up to its [yield], serves [requests]
    requests, and runs the rest of the lifespan. *)
Definition main (requests : nat) : process :=
  let '(api, p) := Api_init (mkProcess 0 [] [] []) in
  let p := lifespan_startup p in
  let p := Nat.iter requests (request api) p in
  lifespan_shutdown p.

End Lifecycle.

(** ** Sample data *)

Definition dune : row := mkRow 1 (Some "Dune") (Some "Herbert") (Some "SciFi")%string.

(** A repository as [__init__] leaves it, over an empty table. *)
Definition empty_shelf : world := mkWorld permits [] None [] [].

Definition shelf : world := mkWorld permits [dune] None [] [].

(** The same, with a storage engine that fails at the next round trip. *)
Definition failing_shelf : world := mkWorld permits [dune] None [true] [].

(** An environment whose storage engine answers every call with a fault. *)
Definition unplugged : answers := λ X _, inl StorageFault.

(** Fifty-one callers, and the event loop resuming the first fifty once. *)
Definition crowd : list call := replicate 51 GetBooks.

Definition rush : list event := (λ i, mkEvent i unplugged) <$> seq 0 50.

(** ** Calls in sequence, and requests *)

(** The calls of a list, one after the other on the same repository;
    what each hands back is dropped. *)
Fixpoint history (cs : list call) (w : world) : world :=
  match cs with
  | [] => w
  | c :: cs' => history cs' (run (operation c) w).2
  end.

(** A request to one of the five routes of [Api.api]. *)
Inductive route : Type :=
| GET_book (id : Z)
| GET_books
| POST_book (title author genre : string)
| PUT_book (id : Z) (title author genre : value)
| DELETE_book (id : Z).

(** The handler of each route; the one for deletion returns nothing,
    which is [None]. *)
Definition handler (r : route) : prog pyobj :=
  match r with
  | GET_book id => PyBook <$> Api.get_book id
  | GET_books => PyList <$> Api.get_books
  | POST_book title author genre => PyBool <$> Api.create_book title author genre
  | PUT_book id title author genre => PyBool <$> Api.update_book id title author genre
  | DELETE_book id => (λ _, PyBook None) <$> Api.delete_book id
  end.

(** The requests in flight, each a task on the one repository of [Api]. *)
Definition serve (rs : list route) : system :=
  mkSystem permits ((λ r, mkTask 0 (handler r)) <$> rs).

(** A program that comes to its end in at most [k] steps, whatever it
    is answered. *)
Fixpoint within {A} (k : nat) (p : prog A) {struct p} : Prop :=
  match p with
  | Ret _ | Raise _ => True
  | Acquire q | Release q =>
      match k with
      | O => False
      | S k' => within k' q
      end
  | Storage _ f =>
      match k with
      | O => False
      | S k' => ∀ r, within k' (f r)
      end
  end.

(** Fifty-one requests to delete, and the event loop taking the first
    fifty into their lookup. *)
Definition purge : list route := DELETE_book <$> replicate 51 1%Z.

(** * Facts *)

(** ** Tables *)

Section table_facts.
Implicit Types (t : table) (r : row) (n : Z) (fields : gmap string value).

Lemma foldr_max_le (m : Z) (l : list Z) : (m ≤ foldr Z.max m l)%Z.
Proof. induction l as [|x l IH]; simpl; lia. Qed.

Lemma foldr_max_ge (m : Z) (l : list Z) x : x ∈ l → (x ≤ foldr Z.max m l)%Z.
Proof.
  induction l as [|y l IH]; simpl; [by intros ?%elem_of_nil|].
  intros [->|Hx]%elem_of_cons; [lia|]. specialize (IH Hx). lia.
Qed.

(** A fresh rowid is above every id in the table. *)
Lemma next_rowid_above t r : r ∈ t → (row_id r < next_rowid t)%Z.
Proof.
  destruct t as [|r0 t]; [by intros ?%elem_of_nil|].
  intros [->|Hr]%elem_of_cons; simpl.
  - pose proof (foldr_max_le (row_id r0) (row_id <$> t)). lia.
  - assert (row_id r ∈ row_id <$> t) as Hin by (by apply list_elem_of_fmap_2).
    pose proof (foldr_max_ge (row_id r0) _ _ Hin). lia.
Qed.

Lemma filter_none {A} (P : A → Prop) `{!∀ x, Decision (P x)} (l : list A) :
  (∀ x, x ∈ l → ¬ P x) → filter P l = [].
Proof.
  induction l as [|x l IH]; intros Hall; [done|].
  rewrite filter_cons_False; [|apply Hall; left].
  apply IH. intros y Hy. apply Hall. by right.
Qed.

Lemma matching_0 n t : matching n t = 0 ↔ ∀ r, r ∈ t → row_id r ≠ n.
Proof.
  unfold matching. rewrite length_zero_iff_nil. split.
  - intros Hnil r Hr Heq. by eapply (filter_nil_not_elem_of _ _ r Hnil).
  - intros Hall. by apply filter_none.
Qed.

Lemma matching_next_rowid t : matching (next_rowid t) t = 0.
Proof.
  apply matching_0. intros r Hr Heq.
  pose proof (next_rowid_above t r Hr). lia.
Qed.

(** Under the primary key, a stored row is the only one with its id. *)
Lemma select_stored t r :
  primary_key t → r ∈ t → filter (λ x, row_id x = row_id r) t = [r].
Proof.
  unfold primary_key. induction t as [|x t IH]; [by intros _ ?%elem_of_nil|].
  rewrite fmap_cons, NoDup_cons. intros [Hx Hnd] [->|Hr]%elem_of_cons.
  - rewrite filter_cons_True by done. f_equal.
    apply filter_none. intros y Hy Heq. apply Hx. rewrite <- Heq.
    by apply list_elem_of_fmap_2.
  - rewrite filter_cons_False; [by apply IH|].
    intros Heq. apply Hx. rewrite Heq. by apply list_elem_of_fmap_2.
Qed.

Lemma set_values_id fields r : row_id (set_values fields r) = row_id r.
Proof. done. Qed.

Lemma sql_update_ids n fields t : row_id <$> sql_update n fields t = row_id <$> t.
Proof.
  unfold sql_update. rewrite <- list_fmap_compose. apply list_fmap_ext.
  intros i r _. simpl. by destruct (decide (row_id r = n)).
Qed.

(** UPDATE leaves every id where it was, so selecting by id commutes
    with it. *)
Lemma select_sql_update m n fields t :
  filter (λ x, row_id x = m) (sql_update n fields t) =
  sql_update n fields (filter (λ x, row_id x = m) t).
Proof.
  unfold sql_update. induction t as [|r t IH]; [done|].
  rewrite fmap_cons. destruct (decide (row_id r = m)) as [Hm|Hm].
  - rewrite !filter_cons_True, fmap_cons, IH; [done..|].
    by destruct (decide (row_id r = n)).
  - rewrite !filter_cons_False, IH; [done..|].
    by destruct (decide (row_id r = n)).
Qed.

Lemma sql_update_unmatched n fields t :
  matching n t = 0 → sql_update n fields t = t.
Proof.
  rewrite matching_0. intros Hall. unfold sql_update.
  induction t as [|r t IH]; [done|]. rewrite fmap_cons.
  rewrite decide_False by (apply Hall; left). f_equal.
  apply IH. intros y Hy. apply Hall. by right.
Qed.

Lemma elem_of_sql_delete n t r : r ∈ sql_delete n t ↔ row_id r ≠ n ∧ r ∈ t.
Proof. unfold sql_delete. by rewrite list_elem_of_filter. Qed.

Lemma matching_sql_delete n t : matching n (sql_delete n t) = 0.
Proof. apply matching_0. by intros r [? _]%elem_of_sql_delete. Qed.

Lemma primary_key_nil : primary_key [].
Proof. apply NoDup_nil_2. Qed.

Lemma primary_key_update n fields t :
  primary_key t → primary_key (sql_update n fields t).
Proof. unfold primary_key. by rewrite sql_update_ids. Qed.

Lemma primary_key_delete n t : primary_key t → primary_key (sql_delete n t).
Proof.
  unfold primary_key, sql_delete. induction t as [|r t IH]; [done|].
  rewrite fmap_cons, NoDup_cons. intros [Hr Hnd].
  destruct (decide (row_id r ≠ n)).
  - rewrite filter_cons_True, fmap_cons, NoDup_cons by done. split; [|by apply IH].
    intros (y & Hy & Hin)%list_elem_of_fmap. apply Hr. rewrite Hy.
    apply list_elem_of_fmap_2. by apply list_elem_of_filter in Hin as [_ ?].
  - rewrite filter_cons_False by done. by apply IH.
Qed.

Lemma primary_key_insert t r :
  primary_key t → matching (row_id r) t = 0 → primary_key (t ++ [r]).
Proof.
  unfold primary_key. rewrite matching_0, fmap_app, NoDup_app. intros Hnd Hall.
  split_and!; [done| |apply NoDup_singleton].
  intros x (y & -> & Hy)%list_elem_of_fmap [Heq|[]%elem_of_nil]%elem_of_cons.
  by apply (Hall y).
Qed.

(** An id within the 64 bits is bound; so is the id of a stored row, and
    an id a statement carried out has named. *)
Lemma bindable_int64 t log n : int64 n = true → bindable t log n = true.
Proof. unfold bindable. by intros ->. Qed.

Lemma bindable_stored t log r : r ∈ t → bindable t log (row_id r) = true.
Proof.
  intros Hr. unfold bindable, known. apply orb_true_iff. right.
  apply bool_decide_eq_true, elem_of_app. left. by apply list_elem_of_fmap_2.
Qed.

Lemma bindable_sent t log q k n :
  mkExecuted q k ∈ log → n ∈ sql_ids q → bindable t log n = true.
Proof.
  intros Hq Hn. unfold bindable, known. apply orb_true_iff. right.
  apply bool_decide_eq_true, elem_of_app. right.
  apply list_elem_of_bind. by exists (mkExecuted q k).
Qed.

Lemma bindable_sent_last t log q k n :
  n ∈ sql_ids q → bindable t (log ++ [mkExecuted q k]) n = true.
Proof.
  intros Hn. apply (bindable_sent _ _ q k); [|done].
  apply elem_of_app. right. left.
Qed.

(** Where every known id is within the 64 bits, the check is the
    driver's: an id is bound exactly when it is within them. *)
Lemma bindable_real t log n :
  Forall (λ m, int64 m = true) (known t log) → bindable t log n = int64 n.
Proof.
  intros Hall. unfold bindable. destruct (int64 n) eqn:Hn; [done|]. simpl.
  apply bool_decide_eq_false. intros Hin.
  rewrite Forall_forall in Hall. specialize (Hall n Hin). congruence.
Qed.
End table_facts.

(** ** One caller: what each operation does *)

Section run_facts.
Implicit Types (w : world) (n : Z) (fields : gmap string value).

#[local] Arguments consumed : simpl never.
#[local] Arguments no_values : simpl never.
#[local] Arguments binds_twice : simpl never.
#[local] Arguments sql_update : simpl never.
#[local] Arguments sql_delete : simpl never.
#[local] Arguments matching : simpl never.
#[local] Arguments next_rowid : simpl never.
#[local] Arguments bindable : simpl never.

Lemma run_on_exit {A B} (p : prog A) (normal : A → prog B)
    (exceptional : exn → prog B) w :
  run (on_exit p normal exceptional) w =
  match run p w with
  | (Returned a, w') => run (normal a) w'
  | (Raised e, w') => run (exceptional e) w'
  | (Blocked, w') => (Blocked, w')
  end.
Proof.
  revert w. induction p as [a|e|k IH|k IH|X q k IH]; intros w; simpl; try done.
  - destruct (semaphore w); [done | apply IH].
  - destruct (respond q w) as [r w']. apply IH.
Qed.

Lemma run_bind {A B} (p : prog A) (f : A → prog B) w :
  run (p ≫= f) w =
  match run p w with
  | (Returned a, w') => run (f a) w'
  | (Raised e, w') => (Raised e, w')
  | (Blocked, w') => (Blocked, w')
  end.
Proof. unfold mbind, prog_bind. by rewrite run_on_exit. Qed.

Lemma fault_free_drop k w : fault_free w = true → forallb negb (drop k (faults w)) = true.
Proof.
  unfold fault_free. generalize (faults w). intros l. revert k.
  induction l as [|f l IH]; intros [|k]; simpl; try done.
  intros [_ ?]%andb_prop. by apply IH.
Qed.

(** A keyword [values] accepts is none of the parameter names. *)
Lemma consumed_binds_once fields : consumed fields = true → binds_twice fields = false.
Proof.
  unfold consumed, binds_twice. intros Hc%bool_decide_eq_true.
  apply bool_decide_eq_false. intros Hex%Exists_exists.
  destruct Hex as (k & Hk & v & Hv). specialize (Hc k v Hv). simpl in Hc.
  assert (k ∉ text_columns) as Hnot; [|done].
  unfold parameter_names in Hk.
  apply elem_of_cons in Hk as [->|Hk]; [|apply elem_of_cons in Hk as [->|Hk]];
    [apply (bool_decide_unpack _); by vm_compute..|by apply elem_of_nil in Hk].
Qed.

(** The tactic of this section: open the world, spend the permit,
    and compute, one case per answer of the fault oracle. *)
Ltac compute_run :=
  match goal with
  | |- context [run _ ?w] => is_var w; destruct w as [[|sem] tbl ses [|[] [|[] fl]] tr]
  end; simpl in *; try lia; try done.

Lemma run_create_book title author genre w :
  0 < semaphore w →
  run (create_book title author genre) w =
  let r := mkRow (next_rowid (books w)) title author genre in
  match faults w with
  | true :: fs =>
      (Returned false, mkWorld (semaphore w) (books w) None fs (trace w))
  | fs =>
      (Returned true,
       mkWorld (semaphore w) (books w ++ [r]) None (tail fs)
               (trace w ++ [mkExecuted (SqlInsert r) 1]))
  end.
Proof. intros Hs. compute_run. Qed.

Lemma run_get_books w :
  0 < semaphore w → fault_free w = true →
  run get_books w =
  (Returned (load <$> books w),
   mkWorld (semaphore w) (books w) None (drop 2 (faults w))
           (trace w ++ [mkExecuted (SqlSelect None) (length (books w))])).
Proof. intros Hs Hf. compute_run. Qed.

Lemma run_get_book_by_id n w :
  0 < semaphore w → fault_free w = true →
  bindable (books w) (trace w) n = true →
  run (get_book_by_id n) w =
  let after k :=
    mkWorld (semaphore w) (books w) None (drop k (faults w))
            (trace w ++ [mkExecuted (SqlSelect (Some n)) (matching n (books w))]) in
  match sql_select (Some n) (books w) with
  | [] => (Returned None, after 2)
  | [r] => (Returned (Some (load r)), after 2)
  | _ => (Raised MultipleResultsFound, after 1)
  end.
Proof.
  intros Hs Hf Hb. unfold matching in *.
  compute_run; rewrite Hb; simpl; by destruct (filter _ tbl) as [|r [|r' rows]].
Qed.

(** An id the driver does not bind: the lookup raises, nothing is sent. *)
Lemma run_get_book_by_id_refused n w :
  0 < semaphore w → fault_free w = true →
  bindable (books w) (trace w) n = false →
  run (get_book_by_id n) w =
  (Raised OverflowError,
   mkWorld (semaphore w) (books w) None (drop 1 (faults w)) (trace w)).
Proof. intros Hs Hf Hb. compute_run; by rewrite Hb. Qed.

Lemma run_update_book n fields w :
  0 < semaphore w → fault_free w = true →
  consumed fields = true → fields ≠ ∅ →
  bindable (books w) (trace w) n = true →
  run (update_book n fields) w =
  (Returned true,
   mkWorld (semaphore w) (sql_update n fields (books w)) None (drop 2 (faults w))
           (trace w ++ [mkExecuted (SqlUpdate n fields) (matching n (books w))])).
Proof.
  intros Hs Hf Hc Hne Hb. unfold update_book.
  rewrite (consumed_binds_once _ Hc).
  assert (no_values fields = false) as Hv by (by apply bool_decide_eq_false).
  compute_run; by rewrite Hc, Hv, Hb.
Qed.

(** An id the driver does not bind: the bare [except] takes the
    OverflowError, the answer is false, nothing is sent. *)
Lemma run_update_book_refused n fields w :
  0 < semaphore w → fault_free w = true →
  consumed fields = true → fields ≠ ∅ →
  bindable (books w) (trace w) n = false →
  run (update_book n fields) w =
  (Returned false,
   mkWorld (semaphore w) (books w) None (drop 1 (faults w)) (trace w)).
Proof.
  intros Hs Hf Hc Hne Hb. unfold update_book.
  rewrite (consumed_binds_once _ Hc).
  assert (no_values fields = false) as Hv by (by apply bool_decide_eq_false).
  compute_run; by rewrite Hc, Hv, Hb.
Qed.

Lemma run_delete_book book w :
  0 < semaphore w →
  run (delete_book book) w =
  match book with
  | None =>
      (Raised UnmappedInstanceError,
       mkWorld (semaphore w) (books w) None (faults w) (trace w))
  | Some b =>
      match Book_id b with
      | None =>
          (Raised InvalidRequestError,
           mkWorld (semaphore w) (books w) None (faults w) (trace w))
      | Some n =>
          match faults w with
          | true :: fs =>
              (Raised StorageFault,
               mkWorld (semaphore w) (books w) None fs (trace w))
          | fs =>
              (Returned true,
               mkWorld (semaphore w) (sql_delete n (books w)) None (tail fs)
                       (trace w ++ [mkExecuted (SqlDelete n) (matching n (books w))]))
          end
      end
  end.
Proof. intros Hs. destruct book as [[[n|] ti au ge]|]; compute_run. Qed.
(** A keyword that names no column: the statement does not compile,
    the bare [except] takes the exception, the answer is false. *)
Lemma run_update_book_unconsumed n fields w :
  0 < semaphore w → fault_free w = true →
  binds_twice fields = false → consumed fields = false →
  run (update_book n fields) w =
  (Returned false,
   mkWorld (semaphore w) (books w) None (drop 1 (faults w)) (trace w)).
Proof.
  intros Hs Hf Hb Hc. unfold update_book. rewrite Hb.
  compute_run; by rewrite Hc.
Qed.

Lemma run_update_book_binds_twice n fields w :
  binds_twice fields = true →
  run (update_book n fields) w = (Raised TypeError, w).
Proof. intros Hb. unfold update_book. by rewrite Hb. Qed.

Lemma run_delete_book_quiet b n w :
  0 < semaphore w → fault_free w = true → Book_id b = Some n →
  run (delete_book (Some b)) w =
  (Returned true,
   mkWorld (semaphore w) (sql_delete n (books w)) None (drop 1 (faults w))
           (trace w ++ [mkExecuted (SqlDelete n) (matching n (books w))])).
Proof.
  intros Hs Hf Hb. rewrite (run_delete_book _ _ Hs), Hb.
  unfold fault_free in Hf. by destruct (faults w) as [|[] fs].
Qed.
End run_facts.

(** ** Many callers: the gate *)

Section gate_facts.
Lemma gate_on_exit {A B} (p : prog A) (normal : A → prog B)
    (exceptional : exn → prog B) h m h' :
  gate h m p →
  (∀ a, gate m h' (normal a)) →
  (∀ e, gate m h' (exceptional e)) →
  gate h h' (on_exit p normal exceptional).
Proof.
  intros Hp Hn Hx. revert h Hp.
  induction p as [a|e|k IH|k IH|X q k IH]; intros h; simpl.
  - by intros ->.
  - by intros ->.
  - intros [-> Hk]. split; [done|]. by apply IH.
  - intros [-> Hk]. split; [done|]. by apply IH.
  - intros [-> Hk]. split; [done|]. intros r. by apply IH.
Qed.

Lemma gate_bind {A B} (p : prog A) (f : A → prog B) h m :
  gate h m p → (∀ a, gate m m (f a)) → gate h m (p ≫= f).
Proof. intros Hp Hf. by apply (gate_on_exit _ _ _ h m m). Qed.

Lemma gate_fmap {A B} (p : prog A) (f : A → B) h m :
  gate h m p → gate h m (f <$> p).
Proof. intros Hp. by apply (gate_on_exit _ _ _ h m m). Qed.

Lemma gate_try_except {A} (p handler : prog A) h m h' :
  gate h m p → m = h' → gate m h' handler → gate h h' (try_except p handler).
Proof. intros Hp -> Hh. by apply (gate_on_exit _ _ _ h h' h'). Qed.

Lemma gate_await {X} (q : storageE X) : gate 1 1 (await q).
Proof. split; [done|]. by intros [e|x]. Qed.

(** A session block inside the gate stays inside it. *)
Lemma gate_session_begin {A} (body : prog A) :
  gate 1 1 body → gate 1 1 (async_with_session_begin body).
Proof.
  intros Hb. unfold async_with_session_begin.
  apply gate_bind; [apply gate_await|]. intros _.
  apply (gate_on_exit _ _ _ 1 1 1); [done|..]; intros ?;
    (apply gate_bind; [apply gate_await|done]).
Qed.

(** The semaphore block: one permit from its first step to its last,
    given back however the body ends. *)
Lemma gate_semaphore {A} (body : prog A) :
  gate 1 1 body → gate 0 0 (async_with_semaphore body).
Proof.
  intros Hb. split; [done|]. by apply (gate_on_exit _ _ _ 1 1 0).
Qed.

Lemma gate_create_book title author genre : gate 0 0 (create_book title author genre).
Proof.
  apply gate_semaphore, (gate_try_except _ _ 1 1 1); [|done|].
  - apply gate_bind; [apply gate_session_begin, gate_await|done].
  - apply gate_bind; [apply gate_session_begin, gate_await|done].
Qed.

Lemma gate_get_books : gate 0 0 get_books.
Proof.
  apply gate_semaphore, gate_bind; [|done].
  apply gate_session_begin, gate_bind; [apply gate_await|done].
Qed.

Lemma gate_get_book_by_id id : gate 0 0 (get_book_by_id id).
Proof.
  apply gate_semaphore, gate_bind; [|done].
  apply gate_session_begin, gate_bind; [apply gate_await|].
  by intros [|b [|b' bs]].
Qed.

Lemma gate_update_book id fields : gate 0 0 (update_book id fields).
Proof.
  unfold update_book. destruct (binds_twice fields); [done|].
  apply gate_semaphore, (gate_try_except _ _ 1 1 1); [|done|].
  - apply gate_bind; [apply gate_session_begin, gate_await|done].
  - apply gate_bind; [apply gate_session_begin, gate_await|done].
Qed.

Lemma gate_delete_book book : gate 0 0 (delete_book book).
Proof.
  apply gate_semaphore, gate_bind; [apply gate_session_begin, gate_await|done].
Qed.

Lemma gate_operation c : gate 0 0 (operation c).
Proof.
  destruct c; apply gate_fmap;
    auto using gate_create_book, gate_get_books, gate_get_book_by_id,
               gate_update_book, gate_delete_book.
Qed.

(** The routes only chain operations: they follow the discipline too. *)
Lemma gate_api_delete_book id : gate 0 0 (Api.delete_book id).
Proof.
  apply gate_bind; [apply gate_get_book_by_id|]. intros book.
  apply gate_bind; [apply gate_delete_book|done].
Qed.

Lemma disciplined_held t :
  disciplined t →
  held t ≤ 1 ∧ (at_storage t = true → held t = 1) ∧ (finished t = true → held t = 0).
Proof.
  unfold disciplined, at_storage, finished.
  destruct (code t) as [a|e|k|k|X q k]; simpl; intros H; split_and!;
    try done; try lia; destruct H; lia.
Qed.

Lemma step_task_disciplined v a t v' t' :
  disciplined t → step_task v a t = Some (v', t') →
  disciplined t' ∧ v' + held t' = v + held t.
Proof.
  unfold disciplined, step_task.
  destruct (code t) as [?|?|k|k|X q k]; simpl; try done.
  - intros [Hh Hk]. destruct v as [|v]; [done|]. intros [= <- <-]. simpl.
    rewrite Hh. split; [done|lia].
  - intros [Hh Hk] [= <- <-]. simpl. rewrite Hh. split; [done|lia].
  - intros [Hh Hk] [= <- <-]. simpl. split; [by rewrite Hh|done].
Qed.

Lemma sum_list_with_insert {A} (f : A → nat) (l : list A) i x y :
  l !! i = Some x →
  sum_list_with f (<[i:=y]> l) + f x = sum_list_with f l + f y.
Proof.
  revert i. induction l as [|z l IH]; intros [|i]; simpl; try done.
  - intros [= ->]. lia.
  - intros Hi. specialize (IH _ Hi). lia.
Qed.

Lemma gate_invariant_start calls : gate_invariant (start calls).
Proof.
  unfold gate_invariant, start, holding. cbn [sem_value tasks]. split.
  - assert (sum_list_with held ((λ c, mkTask 0 (operation c)) <$> calls) = 0) as ->; [|lia].
    induction calls as [|c calls IH]; [done|]. by rewrite fmap_cons.
  - apply Forall_fmap, Forall_forall. intros c _. apply gate_operation.
Qed.

Lemma gate_invariant_step s e s' :
  gate_invariant s → step s e = Some s' → gate_invariant s'.
Proof.
  intros [Hsum Hall]. unfold step.
  destruct (tasks s !! who e) as [t|] eqn:Ht; [|done]. simpl.
  destruct (step_task (sem_value s) (answer e) t) as [[v t']|] eqn:Hstep; [|done].
  simpl. intros [= <-]. 
  assert (disciplined t) as Hd by (by eapply (Forall_lookup_1 _ _ _ _ Hall)).
  destruct (step_task_disciplined _ _ _ _ _ Hd Hstep) as [Hd' Hv].
  unfold gate_invariant, holding in *. simpl. split.
  - pose proof (sum_list_with_insert held _ _ _ t' Ht). lia.
  - by apply Forall_insert.
Qed.

Lemma gate_invariant_steps es s s' :
  gate_invariant s → steps s es = Some s' → gate_invariant s'.
Proof.
  revert s. induction es as [|e es IH]; intros s Hinv; simpl.
  - by intros [= <-].
  - destruct (step s e) as [s1|] eqn:Hstep; [|done]. simpl.
    apply IH. by eapply gate_invariant_step.
Qed.

Lemma executing_le_holding s :
  Forall disciplined (tasks s) → executing s ≤ holding s.
Proof.
  unfold executing, holding. induction 1 as [|t l Ht _ IH]; [done|].
  destruct (disciplined_held _ Ht) as (_ & Hst & _).
  rewrite filter_cons. cbn [sum_list_with].
  destruct (decide (at_storage t = true)) as [Hat|_].
  - rewrite (Hst Hat). cbn [length]. lia.
  - lia.
Qed.

Lemma inside_le_holding s : inside s ≤ holding s.
Proof.
  unfold inside, holding. induction (tasks s) as [|t l IH]; [done|].
  rewrite filter_cons. cbn [sum_list_with].
  destruct (decide (0 < held t)); cbn [length]; lia.
Qed.
End gate_facts.

(** C1: whatever the calls and however the event loop interleaves
    them, the permits in hand and the value of the semaphore add up to
    50; a task holds one permit across every call on its session and
    none once it has returned or raised; so at most 50 tasks are
    between their [acquire] and their [release], and at most 50 are at
    a call on their session. *)
Theorem gate_bounds_critical_section (calls : list call) (es : list event) (s : system) :
  steps (start calls) es = Some s →
  sem_value s + holding s = 50 ∧
  Forall (λ t, held t ≤ 1 ∧
               (at_storage t = true → held t = 1) ∧
               (finished t = true → held t = 0)) (tasks s) ∧
  inside s ≤ 50 ∧
  executing s ≤ 50.
Proof.
  intros Hsteps.
  destruct (gate_invariant_steps _ _ _ (gate_invariant_start calls) Hsteps)
    as [Hsum Hall].
  unfold permits in Hsum. split_and!; [done| | |].
  - eapply Forall_impl; [exact Hall|]. apply disciplined_held.
  - pose proof (inside_le_holding s). lia.
  - pose proof (executing_le_holding _ Hall). lia.
Qed.

(** ** The claims about one caller *)

Lemma keyword_inj c c' : keyword c = keyword c' → c = c'.
Proof. by destruct c, c'. Qed.

Lemma consumed_singleton c (v : value) : consumed {[ keyword c := v ]} = true.
Proof.
  apply bool_decide_eq_true. intros k x [<- <-]%lookup_singleton_Some.
  unfold text_columns. destruct c; cbn [keyword].
  all: rewrite !elem_of_cons; auto.
Qed.

(** What an update of one row leaves in each attribute. *)
Lemma getattr_set_values fields r c :
  getattr (load (set_values fields r)) c =
  default (getattr (load r) c) (fields !! keyword c).
Proof. by destruct c. Qed.

(** C2: on a stored Book with id [n], [update_book n {field: value}]
    followed by [get_book_by_id n] returns a Book with [value] in
    [field] and the other attributes as they were. *)
Theorem update_book_then_get_book_by_id (w : world) (n : Z) (r : row) (c : attribute) (v : value) :
  0 < semaphore w → fault_free w = true →
  primary_key (books w) → r ∈ books w → row_id r = n →
  ∃ b w1 w2,
    run (update_book n {[ keyword c := v ]}) w = (Returned true, w1) ∧
    run (get_book_by_id n) w1 = (Returned (Some b), w2) ∧
    Book_id b = Some n ∧
    getattr b c = v ∧
    ∀ c', c' ≠ c → getattr b c' = getattr (load r) c'.
Proof.
  intros Hs Hf Hpk Hr Hn.
  pose proof (consumed_singleton c v) as Hc.
  assert (({[ keyword c := v ]} : gmap string value) ≠ ∅) as Hne
    by apply insert_non_empty.
  rewrite (run_update_book _ _ _ Hs Hf Hc Hne)
    by (rewrite <- Hn; by apply bindable_stored).
  set (w1 := mkWorld _ _ _ _ _).
  assert (sql_select (Some n) (books w1) = [set_values {[ keyword c := v ]} r]) as Hsel.
  { unfold w1. cbn [books sql_select]. rewrite select_sql_update. subst n.
    rewrite (select_stored _ _ Hpk Hr).
    unfold sql_update. cbn [fmap list_fmap]. by rewrite decide_True. }
  exists (load (set_values {[ keyword c := v ]} r)), w1. eexists.
  split; [reflexivity|]. split.
  { rewrite run_get_book_by_id;
      [ | exact Hs | by apply fault_free_drop | apply bindable_sent_last; left ].
    cbv zeta. by rewrite Hsel. }
  split; [by rewrite <- Hn|]. split.
  - rewrite getattr_set_values. by rewrite lookup_singleton_eq.
  - intros c' Hc'. rewrite getattr_set_values, lookup_singleton_ne; [done|].
    intros Heq%keyword_inj. congruence.
Qed.

Lemma consumed_api_fields (t a g : value) :
  consumed {[ "title"%string := t; "author"%string := a; "genre"%string := g ]} = true.
Proof.
  apply bool_decide_eq_true. unfold text_columns.
  repeat (apply map_Forall_insert_2; [rewrite !elem_of_cons; auto|]).
  apply map_Forall_empty.
Qed.

(** C3: the route passes all three attributes to the update, an unset
    one as [None].  Whatever the id, the one statement the call can
    carry out is the UPDATE that sets all three, and a row with that id
    ends with what was passed, NULL in every unset attribute.  With an
    id within the 64 bits the statement is carried out and the answer
    is true; an id the driver does not bind gives false, and nothing
    is sent. *)
Theorem api_update_book_writes_unset_as_null (w : world) (n : Z) (t a g : value) :
  0 < semaphore w → fault_free w = true →
  ∃ fields b w',
    fields !! "title"%string = Some t ∧
    fields !! "author"%string = Some a ∧
    fields !! "genre"%string = Some g ∧
    run (Api.update_book n t a g) w = (Returned b, w') ∧
    (int64 n = true → b = true) ∧
    trace w' =
      trace w ++
      (if b then [mkExecuted (SqlUpdate n fields) (matching n (books w))] else []) ∧
    books w' = (if b then sql_update n fields (books w) else books w) ∧
    ∀ r, r ∈ books w' → row_id r = n →
         row_title r = t ∧ row_author r = a ∧ row_genre r = g.
Proof.
  intros Hs Hf. unfold Api.update_book.
  set (fields := ({[ _ := t; _ := a; _ := g ]} : gmap string value)).
  assert (fields !! "title"%string = Some t ∧ fields !! "author"%string = Some a ∧
          fields !! "genre"%string = Some g) as (Ht & Ha & Hg).
  { unfold fields. split_and!.
    - by rewrite lookup_insert_eq.
    - by rewrite lookup_insert_ne, lookup_insert_eq.
    - by rewrite !lookup_insert_ne, lookup_singleton_eq. }
  assert (fields ≠ ∅) as Hne by apply insert_non_empty.
  pose proof (consumed_api_fields t a g) as Hc. fold fields in Hc.
  clearbody fields. cbv zeta.
  destruct (bindable (books w) (trace w) n) eqn:Hb.
  - exists fields, true. eexists. split_and!; [done..| | | | |].
    + rewrite run_bind, (run_update_book _ _ _ Hs Hf Hc Hne Hb). reflexivity.
    + done.
    + done.
    + done.
    + cbn [books]. unfold sql_update. intros r (r0 & -> & Hr0)%list_elem_of_fmap.
      destruct (decide (row_id r0 = n)) as [_|Hn]; [|done].
      intros _. unfold set_values. cbn [row_title row_author row_genre].
      by rewrite Ht, Ha, Hg.
  - exists fields, false. eexists. split_and!; [done..| | | | |].
    + rewrite run_bind, (run_update_book_refused _ _ _ Hs Hf Hc Hne Hb). reflexivity.
    + intros Hn. by rewrite (bindable_int64 _ _ _ Hn) in Hb.
    + cbn [trace]. by rewrite app_nil_r.
    + done.
    + cbn [books]. intros r Hr Hn.
      rewrite <- Hn, (bindable_stored _ _ _ Hr) in Hb. done.
Qed.

(** C4: [create_book] always hands back a boolean: true when the
    commit went through, with the new row in the table; false when the
    engine failed, with the table as it was.  Nothing is raised. *)
Theorem create_book_true_or_false (title author genre : value) (w : world) :
  0 < semaphore w →
  ∃ b w',
    run (create_book title author genre) w = (Returned b, w') ∧
    b = negb (hd false (faults w)) ∧
    (b = true →
     books w' = books w ++ [mkRow (next_rowid (books w)) title author genre]) ∧
    (b = false → books w' = books w) ∧
    semaphore w' = semaphore w ∧ session w' = None.
Proof.
  intros Hs. rewrite (run_create_book _ _ _ _ Hs). cbv zeta.
  destruct (faults w) as [|[] fs]; eexists _, _; (split; [reflexivity|]); by split_and!.
Qed.

(** C5, for the ids the driver binds: on an id within the 64 bits that
    no row has, an update with a non-empty mapping of attributes carries
    out one UPDATE filtered by that id, which touches no row; the table
    is as it was and the answer is true. *)
Theorem update_book_unmatched_id (w : world) (n : Z) (fields : gmap string value) :
  0 < semaphore w → fault_free w = true →
  consumed fields = true → fields ≠ ∅ →
  int64 n = true →
  matching n (books w) = 0 →
  ∃ w',
    run (update_book n fields) w = (Returned true, w') ∧
    trace w' = trace w ++ [mkExecuted (SqlUpdate n fields) 0] ∧
    books w' = books w.
Proof.
  intros Hs Hf Hc Hne Hn Hm.
  rewrite (run_update_book _ _ _ Hs Hf Hc Hne (bindable_int64 _ _ _ Hn)).
  eexists. split; [reflexivity|]. cbn [trace books]. rewrite Hm.
  split; [done|]. by apply sql_update_unmatched.
Qed.

(** C6: a Book fetched by [get_book_by_id n] and handed to
    [delete_book] is removed: the next [get_book_by_id n] finds
    nothing, and the table is the old one less the row with id [n]. *)
Theorem delete_book_removes_fetched (w w1 : world) (n : Z) (b : Book) :
  0 < semaphore w → fault_free w = true →
  run (get_book_by_id n) w = (Returned (Some b), w1) →
  ∃ w2 w3,
    run (delete_book (Some b)) w1 = (Returned true, w2) ∧
    run (get_book_by_id n) w2 = (Returned None, w3) ∧
    books w2 = sql_delete n (books w) ∧
    ∀ r, r ∈ books w2 ↔ r ∈ books w ∧ row_id r ≠ n.
Proof.
  intros Hs Hf.
  destruct (bindable (books w) (trace w) n) eqn:Hbind;
    [|by rewrite (run_get_book_by_id_refused _ _ Hs Hf Hbind)].
  rewrite (run_get_book_by_id _ _ Hs Hf Hbind). cbv zeta.
  destruct (sql_select (Some n) (books w)) as [|r [|r' rows]] eqn:Hsel; [done| |done].
  intros [= <- <-].
  assert (row_id r = n) as Hn.
  { assert (r ∈ sql_select (Some n) (books w)) as Hin by (rewrite Hsel; left).
    by apply list_elem_of_filter in Hin as [? _]. }
  set (w1 := mkWorld _ _ _ _ _).
  assert (fault_free w1 = true) as Hf1 by (by apply fault_free_drop).
  rewrite (run_delete_book_quiet (load r) n w1 Hs Hf1) by (by rewrite <- Hn).
  set (w2 := mkWorld _ (sql_delete n (books w1)) _ _ _).
  assert (fault_free w2 = true) as Hf2 by (by apply (fault_free_drop 1)).
  exists w2. eexists. split; [reflexivity|].
  split.
  { rewrite (run_get_book_by_id n w2 Hs Hf2) by (apply bindable_sent_last; left).
    cbv zeta.
    assert (sql_select (Some n) (books w2) = []) as ->; [|reflexivity].
    apply length_zero_iff_nil. apply matching_sql_delete. }
  split; [done|].
  intros x. unfold w2, w1. cbn [books]. rewrite elem_of_sql_delete. tauto.
Qed.

(** C7: after a successful [create_book], [get_book_by_id] on the id
    the store gave the new row returns a Book with the title, author
    and genre that were passed. *)
Theorem create_book_then_get_book_by_id (title author genre : value) (w w1 : world) :
  0 < semaphore w →
  run (create_book title author genre) w = (Returned true, w1) →
  fault_free w1 = true →
  ∃ n w2,
    books w1 = books w ++ [mkRow n title author genre] ∧
    run (get_book_by_id n) w1 =
      (Returned (Some (mkBook (Some n) title author genre)), w2).
Proof.
  intros Hs. rewrite (run_create_book _ _ _ _ Hs). cbv zeta.
  set (r := mkRow _ title author genre).
  intros Hrun Hf1.
  assert (books w1 = books w ++ [r] ∧ semaphore w1 = semaphore w) as [Hb Hs1].
  { by destruct (faults w) as [|[] fs]; simplify_eq. }
  exists (next_rowid (books w)). eexists. split; [done|].
  rewrite run_get_book_by_id; [|by rewrite Hs1|done|]; cycle 1.
  { rewrite Hb. apply (bindable_stored _ _ r), elem_of_app. right. left. }
  cbv zeta.
  assert (sql_select (Some (next_rowid (books w))) (books w1) = [r]) as ->; [|reflexivity].
  rewrite Hb. cbn [sql_select]. rewrite filter_app.
  rewrite (filter_cons_True _ r []) by reflexivity. rewrite filter_nil.
  rewrite filter_none; [done|].
  intros x Hx Heq. pose proof (next_rowid_above _ _ Hx). lia.
Qed.

(** C8, for the ids the driver binds: on an id within the 64 bits that
    no row has, [get_book_by_id] returns [None]; it does not raise. *)
Theorem get_book_by_id_absent (w : world) (n : Z) :
  0 < semaphore w → fault_free w = true →
  int64 n = true →
  matching n (books w) = 0 →
  ∃ w', run (get_book_by_id n) w = (Returned None, w') ∧ books w' = books w.
Proof.
  intros Hs Hf Hn Hm.
  rewrite (run_get_book_by_id _ _ Hs Hf (bindable_int64 _ _ _ Hn)). cbv zeta.
  apply length_zero_iff_nil in Hm. cbn [sql_select]. rewrite Hm.
  by eexists.
Qed.

Lemma run_api_delete_book_absent (w : world) (n : Z) :
  0 < semaphore w → fault_free w = true →
  int64 n = true →
  matching n (books w) = 0 →
  ∃ w', run (Api.delete_book n) w = (Raised UnmappedInstanceError, w') ∧
        books w' = books w ∧ semaphore w' = semaphore w.
Proof.
  intros Hs Hf Hn Hm. unfold Api.delete_book.
  rewrite run_bind, (run_get_book_by_id _ _ Hs Hf (bindable_int64 _ _ _ Hn)). cbv zeta.
  apply length_zero_iff_nil in Hm. cbn [sql_select]. rewrite Hm.
  rewrite run_bind, run_delete_book by done. by eexists.
Qed.

(** C10: [delete_book] hands back nothing but true.  When the engine
    fails at the commit, and when the route passes the [None] of a
    lookup that found nothing, the exception leaves the repository:
    no false is returned.  The table is then as it was. *)
Theorem delete_book_true_or_raises (book : option Book) (w : world) :
  0 < semaphore w →
  (∃ w', run (delete_book book) w = (Returned true, w') ∧
         hd false (faults w) = false)
  ∨ (∃ e w', run (delete_book book) w = (Raised e, w') ∧
             books w' = books w ∧ semaphore w' = semaphore w ∧
             (book = None → e = UnmappedInstanceError) ∧
             (hd false (faults w) = true →
              (∃ b, book = Some b ∧ is_Some (Book_id b)) → e = StorageFault)).
Proof.
  intros Hs. rewrite (run_delete_book _ _ Hs).
  destruct book as [[[n|] ti au ge]|]; cbn [Book_id].
  - destruct (faults w) as [|[] fs]; cbn [hd].
    + left. by eexists.
    + right. eexists _, _. by split_and!.
    + left. by eexists.
  - right. eexists _, _. split_and!; try done.
    intros _ (b & [= <-] & [m Hm]). done.
  - right. eexists _, _. split_and!; try done.
    by intros _ (b & ? & _).
Qed.

(** ** One caller and the gate *)

Section run_gate.
Lemma respond_semaphore {X} (q : storageE X) w :
  semaphore (respond q w).2 = semaphore w.
Proof.
  destruct q; simpl; unfold round_trip, next_fault;
    repeat (case_match; simpl in *; simplify_eq; try done); done.
Qed.

(** A program that follows the discipline never waits when a permit
    is free, and gives back what it took. *)
Lemma run_gate {A} (p : prog A) h h' w :
  gate h h' p → 0 < semaphore w + h →
  (run p w).1 ≠ Blocked ∧ semaphore (run p w).2 + h' = semaphore w + h.
Proof.
  revert h w. induction p as [a|e|k IH|k IH|X q k IH]; intros h w; simpl.
  - by intros ->.
  - by intros ->.
  - intros [-> Hk] Hs. destruct (semaphore w) as [|n] eqn:Hw; [lia|].
    destruct (IH 1 (set_semaphore n w) Hk) as [? Hsem]; [simpl; lia|].
    split; [done|]. simpl in Hsem. lia.
  - intros [-> Hk] Hs.
    destruct (IH 0 (set_semaphore (S (semaphore w)) w) Hk) as [? Hsem]; [simpl; lia|].
    split; [done|]. simpl in Hsem. lia.
  - intros [-> Hk] Hs. pose proof (respond_semaphore q w) as Hq.
    destruct (respond q w) as [r w']. simpl in Hq.
    destruct (IH r 1 w' (Hk r)) as [? Hsem]; [lia|].
    split; [done|]. lia.
Qed.
End run_gate.

(** ** The primary key is kept *)

Section primary_key_kept.
Lemma flush_new_primary_key bs t log t' log' :
  primary_key t → flush_new bs t log = Some (t', log') → primary_key t'.
Proof.
  revert t log. induction bs as [|b bs IH]; intros t log Hpk; simpl.
  - by intros [= <- _].
  - destruct (row_of_new b t) as [r|] eqn:Hr; [|done].
    apply IH. apply primary_key_insert; [done|].
    unfold row_of_new in Hr. destruct (Book_id b) as [n|].
    + destruct (decide (matching n t = 0)); by simplify_eq.
    + simplify_eq. apply matching_next_rowid.
Qed.

Lemma flush_deleted_primary_key ns t log :
  primary_key t → primary_key (flush_deleted ns t log).1.
Proof.
  revert t log. induction ns as [|n ns IH]; intros t log Hpk; simpl; [done|].
  by apply IH, primary_key_delete.
Qed.

Lemma flush_primary_key s log s' log' :
  primary_key (work s) → flush s log = Some (s', log') → primary_key (work s').
Proof.
  intros Hpk. unfold flush.
  destruct (flush_new (pending s) (work s) log) as [[t l]|] eqn:Hnew; [|done].
  simpl. pose proof (flush_deleted_primary_key (doomed s) t l
                       (flush_new_primary_key _ _ _ _ _ Hpk Hnew)) as Hdel.
  destruct (flush_deleted (doomed s) t l) as [t2 l2]. by intros [= <- _].
Qed.

Lemma round_trip_keyed w :
  keyed w →
  keyed (round_trip w).2 ∧
  ∀ s, (round_trip w).1 = inr s → primary_key (work s).
Proof.
  intros Hw. pose proof Hw as [Hb Hs]. unfold round_trip, next_fault.
  destruct (session w) as [s|] eqn:Hses; [|by split].
  specialize (Hs s eq_refl).
  destruct (active s); [|by split].
  assert (∀ fs, keyed (mkWorld (semaphore w) (books w) (Some s) fs (trace w))) as Hk.
  { intros fs. split; [done|]. simpl. by intros ? [= <-]. }
  destruct (faults w) as [|[] fs]; simpl.
  - destruct (flush s (trace w)) as [[s' l]|] eqn:Hfl; simpl; [|by split].
    split; [apply Hw|]. intros ? [= <-]. by eapply flush_primary_key.
  - split; [apply Hk|done].
  - destruct (flush s (trace w)) as [[s' l]|] eqn:Hfl; simpl; [|by split].
    split; [apply (Hk fs)|]. intros ? [= <-]. by eapply flush_primary_key.
Qed.

Lemma respond_keyed {X} (q : storageE X) w : keyed w → keyed (respond q w).2.
Proof.
  intros Hw. pose proof Hw as [Hb Hs].
  pose proof (round_trip_keyed w Hw) as [[Hb' Hs'] Hrt].
  destruct q; cbn -[bindable].
  - by split; [|intros ? [= <-]].
  - destruct (session w) as [s|] eqn:Hses; [|done].
    destruct (active s); [|done]. split; [done|]. intros ? [= <-]. by apply (Hs s).
  - destruct (round_trip w) as [[e|s] w']; cbn -[bindable] in *; [by split|].
    destruct (forallb _ _); (split; [done|]); intros ? [= <-]; by apply Hrt.
  - destruct (round_trip w) as [[e|s] w']; cbn -[bindable] in *; [by split|].
    destruct (consumed fields); cbn -[bindable];
      [destruct (no_values fields); [|destruct (bindable _ _ _)]|];
      (split; [done|]); intros ? [= <-]; cbn;
      try apply primary_key_update; by apply Hrt.
  - destruct b as [b|]; [|done]. destruct (Book_id b) as [n|]; [|done].
    destruct (session w) as [s|] eqn:Hses; [|done].
    destruct (active s); [|done]. split; [done|]. intros ? [= <-]. by apply (Hs s).
  - destruct (session w) as [s|] eqn:Hses; [|done]. by split; [|intros ? [= <-]].
  - destruct raising; [by split|].
    destruct (session w) as [s|] eqn:Hses; [|done].
    destruct (active s); [|by split].
    destruct (round_trip w) as [[e|s'] w']; simpl in *; [by split|].
    split; [by apply Hrt|done].
Qed.

(** Whatever a program does, it leaves the primary key in place. *)
Lemma run_keyed {A} (p : prog A) w : keyed w → keyed (run p w).2.
Proof.
  revert w. induction p as [a|e|k IH|k IH|X q k IH]; intros w Hw; simpl; try done.
  - destruct (semaphore w); [done|]. by apply IH.
  - by apply IH.
  - pose proof (respond_keyed q w Hw) as Hq.
    destruct (respond q w) as [r w']. by apply IH.
Qed.

Lemma keyed_empty_shelf : keyed empty_shelf.
Proof. split; [apply primary_key_nil|done]. Qed.
End primary_key_kept.

(** ** The process and its engine handles *)

Section lifecycle_facts.
Import Lifecycle.

Lemma replicate_snoc {A} n (x : A) : replicate n x ++ [x] = x :: replicate n x.
Proof. induction n as [|n IH]; simpl; [done|]. by rewrite IH. Qed.

Lemma requests_served api n p :
  Nat.iter n (request api) p =
  mkProcess (engines p) (schema p) (used p ++ replicate n (engine (repo api)))
            (disposed p).
Proof.
  induction n as [|n IH]; simpl.
  - rewrite app_nil_r. by destruct p.
  - rewrite IH. unfold request. simpl.
    by rewrite <- app_assoc, replicate_snoc.
Qed.
End lifecycle_facts.

(** C9, as the code has it: the process creates three engine handles.
    The operations on books run through the first, the one of [Api];
    the schema is created through the second and the third is the one
    disposed of, both made by [lifespan] for the occasion.  The handle
    the operations use is never disposed of. *)
Theorem lifespan_makes_its_own_repositories (requests : nat) :
  let p := Lifecycle.main requests in
  Lifecycle.engines p = 3 ∧
  Lifecycle.used p = replicate requests 0 ∧
  Lifecycle.schema p = [1] ∧
  Lifecycle.disposed p = [2] ∧
  ∀ h, h ∈ Lifecycle.used p → (h ∉ Lifecycle.disposed p) ∧ (h ∉ Lifecycle.schema p).
Proof.
  unfold Lifecycle.main. cbn [Lifecycle.Api_init Lifecycle.BookRepository_init
    Lifecycle.lifespan_startup Lifecycle.create_table Lifecycle.engines
    Lifecycle.schema Lifecycle.used Lifecycle.disposed Lifecycle.engine].
  rewrite requests_served. cbv zeta. simpl.
  split_and!; try done.
  intros h [-> _]%elem_of_replicate. split; intros [=]%list_elem_of_singleton.
Qed.

(** ** The claims at sample inputs *)

Lemma gate_bounds_critical_section_witness :
  ∃ s, steps (start crowd) rush = Some s ∧
       sem_value s = 0 ∧ executing s = 50 ∧
       sem_value s + holding s = 50 ∧ executing s ≤ 50.
Proof.
  destruct (steps (start crowd) rush) as [s|] eqn:Hs; [|by vm_compute in Hs].
  exists s. split; [done|].
  destruct (gate_bounds_critical_section crowd rush s Hs) as (Hsum & _ & _ & Hex).
  assert (Some (sem_value s, executing s) = Some (0, 50)) as [= Hv He].
  { change (Some (sem_value s, executing s))
      with ((λ s, (sem_value s, executing s)) <$> Some s).
    rewrite <- Hs. by vm_compute. }
  split_and!; [exact Hv|exact He|exact Hsum|exact Hex].
Defined.

Lemma shelf_open : 0 < semaphore shelf.
Proof. unfold shelf, permits. simpl. lia. Qed.

Lemma update_book_then_get_book_by_id_witness :
  ∃ b w1 w2,
    run (update_book 1 {[ keyword Genre := Some "Epic"%string ]}) shelf
      = (Returned true, w1) ∧
    run (get_book_by_id 1) w1 = (Returned (Some b), w2) ∧
    Book_id b = Some 1%Z ∧
    getattr b Genre = Some "Epic"%string ∧
    ∀ c', c' ≠ Genre → getattr b c' = getattr (load dune) c'.
Proof.
  apply (update_book_then_get_book_by_id shelf 1 dune Genre (Some "Epic"%string)).
  - exact shelf_open.
  - reflexivity.
  - apply NoDup_singleton.
  - left.
  - reflexivity.
Defined.

Lemma api_update_book_writes_unset_as_null_witness :
  ∃ fields w',
    fields !! "title"%string = Some None ∧
    fields !! "author"%string = Some None ∧
    fields !! "genre"%string = Some (Some "Epic"%string) ∧
    run (Api.update_book 1 None None (Some "Epic"%string)) shelf = (Returned true, w') ∧
    trace w' = trace shelf ++ [mkExecuted (SqlUpdate 1 fields) (matching 1 (books shelf))] ∧
    books w' = sql_update 1 fields (books shelf) ∧
    ∀ r, r ∈ books w' → row_id r = 1%Z →
         row_title r = None ∧ row_author r = None ∧ row_genre r = Some "Epic"%string.
Proof.
  destruct (api_update_book_writes_unset_as_null shelf 1 None None (Some "Epic"%string))
    as (fields & b & w' & Ht & Ha & Hg & Hrun & Hb & Htr & Hbooks & Hrows).
  - exact shelf_open.
  - reflexivity.
  - assert (b = true) as -> by (apply Hb; reflexivity).
    exists fields, w'. split_and!; assumption.
Defined.

Lemma create_book_true_or_false_witness :
  ∃ w', run (create_book (Some "Emma") (Some "Austen") (Some "Novel"))%string failing_shelf
          = (Returned false, w') ∧
        books w' = books failing_shelf.
Proof.
  destruct (create_book_true_or_false
              (Some "Emma") (Some "Austen") (Some "Novel")%string failing_shelf)
    as (b & w' & Hrun & Hb & _ & Hsame & _).
  - unfold failing_shelf, permits. simpl. lia.
  - simpl in Hb. subst b. exists w'. split; [exact Hrun|]. by apply Hsame.
Defined.

Lemma update_book_unmatched_id_witness :
  ∃ w', run (update_book 7 {[ "genre"%string := Some "Epic"%string ]}) shelf
          = (Returned true, w') ∧
        trace w' = trace shelf ++
          [mkExecuted (SqlUpdate 7 {[ "genre"%string := Some "Epic"%string ]}) 0] ∧
        books w' = books shelf.
Proof.
  apply (update_book_unmatched_id shelf 7 {[ "genre"%string := Some "Epic"%string ]}).
  - exact shelf_open.
  - reflexivity.
  - exact (consumed_singleton Genre (Some "Epic"%string)).
  - apply insert_non_empty.
  - reflexivity.
  - reflexivity.
Defined.

(** C5 without the bound on the id, at 2^63: no row has that id, the
    mapping names an attribute and the engine does not fail; the driver
    does not bind the id, the answer is false and no statement is
    carried out. *)
Lemma update_book_unmatched_id_beyond_int64 :
  0 < semaphore shelf ∧ fault_free shelf = true ∧
  consumed {[ "genre"%string := Some "Epic"%string ]} = true ∧
  ({[ "genre"%string := Some "Epic"%string ]} : gmap string value) ≠ ∅ ∧
  matching (2 ^ 63) (books shelf) = 0 ∧
  ¬ (∃ w', run (update_book (2 ^ 63) {[ "genre"%string := Some "Epic"%string ]}) shelf
             = (Returned true, w')) ∧
  ∃ w', run (update_book (2 ^ 63) {[ "genre"%string := Some "Epic"%string ]}) shelf
          = (Returned false, w') ∧
        trace w' = trace shelf ∧ books w' = books shelf.
Proof.
  assert (run (update_book (2 ^ 63) {[ "genre"%string := Some "Epic"%string ]}) shelf
          = (Returned false, mkWorld 50 [dune] None [] [])) as Hrun by (by vm_compute).
  split_and!.
  - exact shelf_open.
  - reflexivity.
  - exact (consumed_singleton Genre (Some "Epic"%string)).
  - apply insert_non_empty.
  - reflexivity.
  - intros [w' Hw']. rewrite Hrun in Hw'. discriminate Hw'.
  - eexists. split; [exact Hrun|]. by split.
Qed.

Lemma delete_book_removes_fetched_witness :
  ∃ w1 w2 w3,
    run (get_book_by_id 1) shelf = (Returned (Some (load dune)), w1) ∧
    run (delete_book (Some (load dune))) w1 = (Returned true, w2) ∧
    run (get_book_by_id 1) w2 = (Returned None, w3) ∧
    books w2 = sql_delete 1 (books shelf) ∧
    ∀ r, r ∈ books w2 ↔ r ∈ books shelf ∧ row_id r ≠ 1%Z.
Proof.
  eexists. 
  assert (run (get_book_by_id 1) shelf = (Returned (Some (load dune)), _)) as Hget
    by (vm_compute; reflexivity).
  destruct (delete_book_removes_fetched shelf _ 1 (load dune) shelf_open eq_refl Hget)
    as (w2 & w3 & H).
  exists w2, w3. split; [exact Hget|exact H].
Defined.

Lemma create_book_then_get_book_by_id_witness :
  ∃ w1 n w2,
    run (create_book (Some "Emma") (Some "Austen") (Some "Novel"))%string shelf
      = (Returned true, w1) ∧
    books w1 = books shelf ++ [mkRow n (Some "Emma") (Some "Austen") (Some "Novel")]%string ∧
    run (get_book_by_id n) w1 =
      (Returned (Some (mkBook (Some n) (Some "Emma") (Some "Austen") (Some "Novel"))%string), w2).
Proof.
  eexists.
  assert (run (create_book (Some "Emma") (Some "Austen") (Some "Novel"))%string shelf
          = (Returned true, _)) as Hrun by (vm_compute; reflexivity).
  destruct (create_book_then_get_book_by_id _ _ _ shelf _ shelf_open Hrun eq_refl)
    as (n & w2 & H).
  exists n, w2. split; [exact Hrun|exact H].
Defined.

Lemma get_book_by_id_absent_witness :
  ∃ w', run (get_book_by_id 7) shelf = (Returned None, w') ∧ books w' = books shelf.
Proof.
  apply (get_book_by_id_absent shelf 7).
  - exact shelf_open.
  - reflexivity.
  - reflexivity.
  - reflexivity.
Defined.

(** C8 without the bound on the id, at 2^63: no row has that id and
    the engine does not fail; the driver does not bind the id and the
    lookup raises. *)
Lemma get_book_by_id_absent_beyond_int64 :
  0 < semaphore shelf ∧ fault_free shelf = true ∧
  matching (2 ^ 63) (books shelf) = 0 ∧
  ¬ (∃ w', run (get_book_by_id (2 ^ 63)) shelf = (Returned None, w')) ∧
  ∃ w', run (get_book_by_id (2 ^ 63)) shelf = (Raised OverflowError, w').
Proof.
  assert (run (get_book_by_id (2 ^ 63)) shelf
          = (Raised OverflowError, mkWorld 50 [dune] None [] [])) as Hrun
    by (by vm_compute).
  split_and!.
  - exact shelf_open.
  - reflexivity.
  - reflexivity.
  - intros [w' Hw']. rewrite Hrun in Hw'. discriminate Hw'.
  - by eexists.
Qed.

Lemma delete_book_true_or_raises_witness :
  ∃ w', run (delete_book None) shelf = (Raised UnmappedInstanceError, w') ∧
        books w' = books shelf.
Proof.
  destruct (delete_book_true_or_raises None shelf shelf_open)
    as [(w' & Hrun & _)|(e & w' & Hrun & Hb & _ & He & _)].
  - exfalso. rewrite (run_delete_book None shelf shelf_open) in Hrun. discriminate Hrun.
  - rewrite (He eq_refl) in Hrun. by exists w'.
Defined.

(** ** Sample runs *)

(** Create, look up, update the genre, look up, delete, look up: the
    answers, and the table at the end. *)
Example scenario :
  let '(r1, w) := run (create_book (Some "Dune") (Some "Herbert") (Some "SciFi"))%string
                      empty_shelf in
  let '(r2, w) := run get_books w in
  let '(r3, w) := run (get_book_by_id 1) w in
  let '(r4, w) := run (update_book 1 {[ "genre"%string := Some "Epic"%string ]}) w in
  let '(r5, w) := run (get_book_by_id 1) w in
  let '(r6, w) := run (delete_book (Some (load dune))) w in
  let '(r7, w) := run (get_book_by_id 1) w in
  (r1, r2, r3, r4, r5, r6, r7, books w, semaphore w) =
  (Returned true,
   Returned [load dune],
   Returned (Some (load dune)),
   Returned true,
   Returned (Some (mkBook (Some 1%Z) (Some "Dune") (Some "Herbert") (Some "Epic"))%string),
   Returned true,
   Returned None,
   [], 50).
Proof. by vm_compute. Qed.

(** With fifty callers past [acquire], the fifty-first cannot be
    resumed. *)
Example fifty_first_waits :
  (steps (start crowd) rush ≫= λ s, step s (mkEvent 50 unplugged)) = None.
Proof. by vm_compute. Qed.

(** An update naming something that is no column answers false. *)
Example update_unknown_column :
  (run (update_book 1 {[ "pages"%string := Some "412"%string ]}) shelf).1 = Returned false.
Proof. by vm_compute. Qed.

(** The route for deletion, on an id nobody has. *)
Example delete_route_unknown_id :
  (run (Api.delete_book 7) shelf).1 = Raised UnmappedInstanceError.
Proof. by vm_compute. Qed.

(** * More of the repository *)

(** ** Every outcome of a call *)

Section any_outcome.
Implicit Types (w : world) (n : Z) (fields : gmap string value).

#[local] Arguments consumed : simpl never.
#[local] Arguments no_values : simpl never.
#[local] Arguments binds_twice : simpl never.
#[local] Arguments sql_update : simpl never.
#[local] Arguments sql_delete : simpl never.
#[local] Arguments sql_select : simpl never.
#[local] Arguments matching : simpl never.
#[local] Arguments next_rowid : simpl never.
#[local] Arguments bindable : simpl never.

(** One case per value of the semaphore and per answer of the fault
    oracle to the next two round trips. *)
Ltac open_world w :=
  destruct w as [[|sem] tbl ses [|[] [|[] fl]] tr]; simpl in *; try lia.

Lemma run_bind_ret {A} (p : prog A) w : run (p ≫= Ret) w = run p w.
Proof. rewrite run_bind. by destruct (run p w) as [[a|e|] w']. Qed.

Lemma run_fmap {A B} (f : A → B) (p : prog A) w :
  run (f <$> p) w =
  match run p w with
  | (Returned a, w') => (Returned (f a), w')
  | (Raised e, w') => (Raised e, w')
  | (Blocked, w') => (Blocked, w')
  end.
Proof. unfold fmap, prog_fmap. by rewrite run_on_exit. Qed.

Lemma sql_delete_unmatched n (t : table) : matching n t = 0 → sql_delete n t = t.
Proof.
  rewrite matching_0. intros Hall. unfold sql_delete.
  induction t as [|r t IH]; [done|].
  rewrite filter_cons_True by (apply Hall; left). f_equal.
  apply IH. intros y Hy. apply Hall. by right.
Qed.

(** [update_book], whatever the engine does. *)
Lemma run_update_book_any n fields w :
  0 < semaphore w → binds_twice fields = false →
  let ok := consumed fields && negb (no_values fields) &&
            bindable (books w) (trace w) n &&
            negb (hd false (faults w)) && negb (hd false (tail (faults w))) in
  ∃ fs tr,
    run (update_book n fields) w =
    (Returned ok,
     mkWorld (semaphore w) (if ok then sql_update n fields (books w) else books w)
             None fs tr).
Proof.
  intros Hs Hb. unfold update_book. rewrite Hb.
  open_world w;
    destruct (consumed fields), (no_values fields), (bindable tbl tr n); simpl;
    by eexists _, _.
Qed.

Lemma run_reads_books n w :
  books (run (get_book_by_id n) w).2 = books w ∧
  books (run get_books w).2 = books w.
Proof.
  split; open_world w; try done.
  all: destruct (bindable tbl tr n); simpl; try done.
  all: by destruct (sql_select (Some n) tbl) as [|r [|r' rows]].
Qed.
End any_outcome.

(** ** Create and list *)

Lemma foldr_max_attained (m : Z) (l : list Z) :
  foldr Z.max m l = m ∨ foldr Z.max m l ∈ l.
Proof.
  induction l as [|x l IH]; simpl; [by left|].
  destruct (Z.max_spec x (foldr Z.max m l)) as [[_ ->]|[_ ->]].
  - destruct IH as [->|IH]; [by left|]. right. by right.
  - right. left.
Qed.

(** On a table that does not hold the last id, the next id is not past
    it. *)
Lemma next_rowid_bound (t : table) :
  max_rowid_free t → (next_rowid t ≤ 2 ^ 63 - 1)%Z.
Proof.
  intros Hfree. destruct t as [|r t]; simpl; [lia|].
  assert (∃ x, x ∈ r :: t ∧ foldr Z.max (row_id r) (row_id <$> t) = row_id x)
    as (x & Hx & ->).
  { destruct (foldr_max_attained (row_id r) (row_id <$> t)) as [->|Hin].
    - exists r. split; [left|done].
    - apply list_elem_of_fmap in Hin as (x & Hx & Hin). exists x. split; [by right|done]. }
  specialize (Hfree x Hx). lia.
Qed.

(** X1: on a table that does not hold the last id there is, after a
    successful [create_book], [get_books] returns the Books that were
    there, in their order, followed by the new one; its id is above
    every id in use before and not past the last id. *)
Theorem create_book_then_get_books (title author genre : value) (w w1 : world) :
  0 < semaphore w →
  max_rowid_free (books w) →
  run (create_book title author genre) w = (Returned true, w1) →
  fault_free w1 = true →
  ∃ n w2,
    run get_books w1 =
      (Returned ((load <$> books w) ++ [mkBook (Some n) title author genre]), w2) ∧
    (∀ r, r ∈ books w → (row_id r < n)%Z) ∧
    (n ≤ 2 ^ 63 - 1)%Z.
Proof.
  intros Hs Hfree. rewrite (run_create_book _ _ _ _ Hs). cbv zeta.
  set (r := mkRow _ title author genre).
  intros Hrun Hf1.
  assert (books w1 = books w ++ [r] ∧ semaphore w1 = semaphore w) as [Hb Hs1].
  { by destruct (faults w) as [|[] fs]; simplify_eq. }
  exists (next_rowid (books w)). eexists. split_and!.
  - rewrite run_get_books; [|by rewrite Hs1|done].
    rewrite Hb, fmap_app. reflexivity.
  - apply next_rowid_above.
  - by apply next_rowid_bound.
Qed.

(** ** What every call keeps *)

Lemma history_kept cs w :
  keyed w → semaphore w = permits →
  keyed (history cs w) ∧ semaphore (history cs w) = permits.
Proof.
  revert w. induction cs as [|c cs IH]; intros w Hk Hs; simpl; [done|].
  apply IH; [by apply run_keyed|].
  destruct (run_gate (operation c) 0 0 w (gate_operation c)) as [_ Hsem].
  - rewrite Hs. unfold permits. lia.
  - lia.
Qed.

(** X2: start from an empty table; whatever calls follow one another
    and whichever round trips fail, no two rows of the table share an
    id, and the semaphore is back at 50. *)
Theorem history_keeps_primary_key (cs : list call) (fs : list bool) :
  let w := history cs (mkWorld permits [] None fs []) in
  primary_key (books w) ∧ semaphore w = 50.
Proof.
  destruct (history_kept cs (mkWorld permits [] None fs [])) as [[Hpk _] Hs];
    [split; [apply primary_key_nil|done]|done|].
  by split.
Qed.

(** X3: a call that finds a permit free does not wait, and hands the
    permit back whether it returns or raises. *)
Theorem operation_returns_permit (c : call) (w : world) :
  0 < semaphore w →
  (run (operation c) w).1 ≠ Blocked ∧
  semaphore (run (operation c) w).2 = semaphore w.
Proof.
  intros Hs.
  destruct (run_gate (operation c) 0 0 w (gate_operation c)) as [Hnb Hsem]; [lia|].
  split; [done|lia].
Qed.

(** ** Updates *)

(** X4: [update_book] with keywords of its own always hands back a
    boolean.  With an id within the 64 bits it is true exactly when
    every key names a text column, there is something to set, and
    neither the statement nor the commit failed; with an id outside
    them that no row has it is false.  When it is true the table is the
    updated one; when it is false the table is as it was. *)
Theorem update_book_true_or_false (n : Z) (fields : gmap string value) (w : world) :
  0 < semaphore w → binds_twice fields = false →
  ∃ b w',
    run (update_book n fields) w = (Returned b, w') ∧
    (int64 n = true →
     b = consumed fields && negb (no_values fields) &&
         negb (hd false (faults w)) && negb (hd false (tail (faults w)))) ∧
    (int64 n = false → bindable (books w) (trace w) n = false → b = false) ∧
    (b = true → books w' = sql_update n fields (books w)) ∧
    (b = false → books w' = books w) ∧
    semaphore w' = semaphore w ∧ session w' = None.
Proof.
  intros Hs Hb. destruct (run_update_book_any n fields w Hs Hb) as (fs & tr & Hrun).
  cbv zeta in Hrun. eexists _, _. split; [exact Hrun|].
  cbn [books semaphore session]. split_and!; try done.
  - intros Hn. rewrite (bindable_int64 _ _ _ Hn). by rewrite andb_true_r.
  - intros _ ->. by rewrite andb_false_r.
  - by intros ->.
  - by intros ->.
Qed.

(** X5: no call of [update_book] changes an id: the ids in the table
    are the same, in the same order, whatever the mapping, the engine
    and the semaphore do. *)
Theorem update_book_keeps_ids (n : Z) (fields : gmap string value) (w : world) :
  row_id <$> books (run (update_book n fields) w).2 = row_id <$> books w.
Proof.
  destruct (binds_twice fields) eqn:Hb.
  { by rewrite run_update_book_binds_twice. }
  destruct (semaphore w) as [|sem] eqn:Hsem.
  { unfold update_book. rewrite Hb. simpl. by rewrite Hsem. }
  destruct (run_update_book_any n fields w) as (fs & tr & Hrun); [lia|done|].
  cbv zeta in Hrun. rewrite Hrun. cbn [snd books].
  case_match; [apply sql_update_ids|done].
Qed.

(** ** Lookups *)

(** X6: [get_book_by_id] and [get_books] leave the table as it is,
    whether they return, raise or wait. *)
Theorem reads_leave_table (n : Z) (w : world) :
  books (run (get_book_by_id n) w).2 = books w ∧
  books (run get_books w).2 = books w.
Proof. apply run_reads_books. Qed.

(** X7: under the primary key, [get_book_by_id] on the id of a stored
    row returns that row as a Book. *)
Theorem get_book_by_id_finds_stored (w : world) (r : row) :
  0 < semaphore w → fault_free w = true →
  primary_key (books w) → r ∈ books w →
  ∃ w', run (get_book_by_id (row_id r)) w = (Returned (Some (load r)), w').
Proof.
  intros Hs Hf Hpk Hr.
  rewrite (run_get_book_by_id _ _ Hs Hf (bindable_stored _ _ _ Hr)). cbv zeta.
  cbn [sql_select]. rewrite (select_stored _ _ Hpk Hr). by eexists.
Qed.

(** X13: the lookups have no handler: when the engine fails at their
    query they raise the fault, with the permit handed back. *)
Theorem reads_raise_on_fault (n : Z) (w : world) :
  0 < semaphore w → hd false (faults w) = true →
  ∃ w1 w2,
    run (get_book_by_id n) w = (Raised StorageFault, w1) ∧
    run get_books w = (Raised StorageFault, w2) ∧
    semaphore w1 = semaphore w ∧ semaphore w2 = semaphore w.
Proof.
  intros Hs Hf. destruct w as [[|sem] tbl ses [|[] fl] tr]; simpl in *; try lia; try done.
  by eexists _, _.
Qed.

(** ** Deletions *)

(** X8: [delete_book] does not check that the row is still there.
    Fetch a Book twice and delete the first copy; deleting the second
    carries out one DELETE, which touches no row, leaves the table as
    it was and answers true. *)
Theorem delete_book_unmatched (n : Z) (b b' : Book) (w w1 w2 : world) :
  0 < semaphore w → fault_free w = true →
  run (get_book_by_id n) w = (Returned (Some b), w1) →
  run (get_book_by_id n) w1 = (Returned (Some b'), w2) →
  ∃ w3 w4,
    run (delete_book (Some b)) w2 = (Returned true, w3) ∧
    run (delete_book (Some b')) w3 = (Returned true, w4) ∧
    trace w4 = trace w3 ++ [mkExecuted (SqlDelete n) 0] ∧
    books w4 = books w3.
Proof.
  intros Hs Hf.
  destruct (bindable (books w) (trace w) n) eqn:Hbind;
    [|by rewrite (run_get_book_by_id_refused _ _ Hs Hf Hbind)].
  rewrite (run_get_book_by_id _ _ Hs Hf Hbind). cbv zeta.
  destruct (sql_select (Some n) (books w)) as [|r [|r' rows]] eqn:Hsel; [done| |done].
  intros [= <- <-].
  assert (row_id r = n) as Hn.
  { assert (r ∈ sql_select (Some n) (books w)) as Hin by (rewrite Hsel; left).
    by apply list_elem_of_filter in Hin as [? _]. }
  set (w1 := mkWorld _ _ _ _ _).
  assert (fault_free w1 = true) as Hf1 by (by apply fault_free_drop).
  rewrite (run_get_book_by_id n w1 Hs Hf1) by (apply bindable_sent_last; left).
  cbv zeta. change (books w1) with (books w). rewrite Hsel.
  intros [= <- <-].
  set (w2 := mkWorld _ _ _ _ _).
  assert (fault_free w2 = true) as Hf2 by exact (fault_free_drop 2 w1 Hf1).
  rewrite (run_delete_book_quiet (load r) n w2 Hs Hf2) by (by rewrite <- Hn).
  set (w3 := mkWorld _ (sql_delete n (books w2)) _ _ _).
  assert (fault_free w3 = true) as Hf3 by exact (fault_free_drop 1 w2 Hf2).
  exists w3. eexists. split; [reflexivity|].
  rewrite (run_delete_book_quiet (load r) n w3 Hs Hf3) by (by rewrite <- Hn).
  split; [reflexivity|].
  unfold w3. cbn [trace books]. rewrite matching_sql_delete. split; [done|].
  apply sql_delete_unmatched, matching_sql_delete.
Qed.

(** X12: the route for deletion, on the id of a stored row: the lookup
    and the deletion go through one after the other, the row is gone and
    the other rows are as they were. *)
Theorem delete_route_removes_stored (w : world) (r : row) :
  0 < semaphore w → fault_free w = true →
  primary_key (books w) → r ∈ books w →
  ∃ w',
    run (Api.delete_book (row_id r)) w = (Returned (), w') ∧
    books w' = sql_delete (row_id r) (books w) ∧
    (r ∉ books w') ∧
    ∀ x, x ∈ books w → row_id x ≠ row_id r → x ∈ books w'.
Proof.
  intros Hs Hf Hpk Hr. unfold Api.delete_book.
  rewrite run_bind, (run_get_book_by_id _ _ Hs Hf (bindable_stored _ _ _ Hr)). cbv zeta.
  cbn [sql_select]. rewrite (select_stored _ _ Hpk Hr).
  set (w1 := mkWorld _ _ _ _ _).
  assert (fault_free w1 = true) as Hf1 by (by apply fault_free_drop).
  rewrite run_bind, (run_delete_book_quiet (load r) (row_id r) w1 Hs Hf1) by done.
  eexists. split; [reflexivity|]. cbn [books]. split; [done|]. split.
  - by intros [? _]%elem_of_sql_delete.
  - intros x Hx Hne. by apply elem_of_sql_delete.
Qed.

(** ** Routes *)

(** The routes to look up, list, create and update hand back what the
    operation of the repository hands back, and leave the store in the
    state the operation leaves it in. *)
Lemma routes_pass_through (w : world) (n : Z) (t a g : string) (ot oa og : value) :
  run (Api.get_book n) w = run (get_book_by_id n) w ∧
  run Api.get_books w = run get_books w ∧
  run (Api.create_book t a g) w = run (create_book (Some t) (Some a) (Some g)) w ∧
  run (Api.update_book n ot oa og) w =
    run (update_book n {[ "title"%string := ot; "author"%string := oa;
                          "genre"%string := og ]}) w.
Proof. split_and!; apply run_bind_ret. Qed.

(** ** Listing, and operations one after the other *)

(** X14: [get_books] returns every row of the table as a Book, in the
    order of the table, with one SELECT, and leaves the table alone. *)
Theorem get_books_lists_table (w : world) :
  0 < semaphore w → fault_free w = true →
  ∃ w',
    run get_books w = (Returned (load <$> books w), w') ∧
    trace w' = trace w ++ [mkExecuted (SqlSelect None) (length (books w))] ∧
    books w' = books w.
Proof. intros Hs Hf. rewrite (run_get_books _ Hs Hf). by eexists. Qed.

Lemma sql_delete_fresh (t : table) (r : row) :
  row_id r = next_rowid t → sql_delete (row_id r) (t ++ [r]) = t.
Proof.
  intros Hr. unfold sql_delete. rewrite filter_app.
  rewrite (filter_cons_False _ r []) by (intros Hne; by apply Hne).
  rewrite filter_nil, app_nil_r.
  assert (∀ x, x ∈ t → row_id x ≠ row_id r) as Hall.
  { intros x Hx. pose proof (next_rowid_above t x Hx). lia. }
  clear Hr. induction t as [|x t IH]; [done|].
  rewrite filter_cons_True by (apply Hall; left). f_equal.
  apply IH. intros y Hy. apply Hall. by right.
Qed.

(** X15: deleting the Book a successful [create_book] has just stored
    gives back the table there was before the creation. *)
Theorem create_book_then_delete_book (title author genre : value) (w w1 : world) :
  0 < semaphore w →
  run (create_book title author genre) w = (Returned true, w1) →
  fault_free w1 = true →
  ∃ n w2,
    books w1 = books w ++ [mkRow n title author genre] ∧
    run (delete_book (Some (mkBook (Some n) title author genre))) w1
      = (Returned true, w2) ∧
    books w2 = books w.
Proof.
  intros Hs. rewrite (run_create_book _ _ _ _ Hs). cbv zeta.
  set (r := mkRow _ title author genre).
  intros Hrun Hf1.
  assert (books w1 = books w ++ [r] ∧ semaphore w1 = semaphore w) as [Hb Hs1].
  { by destruct (faults w) as [|[] fs]; simplify_eq. }
  exists (next_rowid (books w)). eexists. split; [done|].
  rewrite (run_delete_book_quiet _ (next_rowid (books w)) w1); [|by rewrite Hs1|done..].
  split; [reflexivity|]. cbn [books]. rewrite Hb.
  by apply (sql_delete_fresh (books w) r).
Qed.

Lemma sql_update_twice n fields (t : table) :
  sql_update n fields (sql_update n fields t) = sql_update n fields t.
Proof.
  unfold sql_update. rewrite <- list_fmap_compose. apply list_fmap_ext.
  intros i r _. cbn [compose].
  destruct (decide (row_id r = n)) as [Hn|Hn].
  - rewrite decide_True by done. unfold set_values.
    cbn [row_id row_title row_author row_genre].
    by destruct (fields !! "title"%string), (fields !! "author"%string),
                (fields !! "genre"%string).
  - by rewrite decide_False.
Qed.

(** X16: with an id within the 64 bits, the same update a second time
    changes nothing more: the table after two calls is the table after
    one. *)
Theorem update_book_twice (n : Z) (fields : gmap string value) (w : world) :
  0 < semaphore w → fault_free w = true →
  consumed fields = true → fields ≠ ∅ →
  int64 n = true →
  ∃ w1 w2,
    run (update_book n fields) w = (Returned true, w1) ∧
    run (update_book n fields) w1 = (Returned true, w2) ∧
    books w2 = books w1.
Proof.
  intros Hs Hf Hc Hne Hn.
  rewrite (run_update_book _ _ _ Hs Hf Hc Hne (bindable_int64 _ _ _ Hn)).
  set (w1 := mkWorld _ _ _ _ _).
  assert (fault_free w1 = true) as Hf1 by (by apply fault_free_drop).
  exists w1. eexists. split; [done|].
  rewrite (run_update_book n fields w1 Hs Hf1 Hc Hne (bindable_int64 _ _ _ Hn)).
  split; [reflexivity|]. cbn [books]. apply sql_update_twice.
Qed.

(** ** Requests in flight *)

Section requests_in_flight.
Lemma gate_handler r : gate 0 0 (handler r).
Proof.
  destruct r; apply gate_fmap.
  - apply gate_bind; [apply gate_get_book_by_id|done].
  - apply gate_bind; [apply gate_get_books|done].
  - apply gate_bind; [apply gate_create_book|done].
  - apply gate_bind; [apply gate_update_book|done].
  - apply gate_api_delete_book.
Qed.

Lemma gate_invariant_serve rs : gate_invariant (serve rs).
Proof.
  unfold gate_invariant, serve, holding. cbn [sem_value tasks]. split.
  - assert (sum_list_with held ((λ r, mkTask 0 (handler r)) <$> rs) = 0) as ->; [|lia].
    induction rs as [|r rs IH]; [done|]. by rewrite fmap_cons.
  - apply Forall_fmap, Forall_forall. intros r _. apply gate_handler.
Qed.

Lemma holder_exists (l : list task) :
  0 < sum_list_with held l → ∃ i t, l !! i = Some t ∧ 0 < held t.
Proof.
  induction l as [|t l IH]; cbn [sum_list_with]; [lia|]. intros Hsum.
  destruct (decide (0 < held t)) as [Ht|Ht].
  - by exists 0, t.
  - destruct IH as (i & t' & Hi & Ht'); [lia|]. by exists (S i), t'.
Qed.

(** Short of a permit, a task that holds one can go on; with a permit
    free, every unfinished task can. *)
Lemma gate_invariant_enabled s t :
  gate_invariant s → t ∈ tasks s → finished t = false →
  ∃ i, ∀ a, is_Some (step s (mkEvent i a)).
Proof.
  intros [Hsum Hall] Ht Hunf. unfold step. cbn [who answer].
  destruct (sem_value s) as [|v] eqn:Hv.
  - destruct (holder_exists (tasks s)) as (i & t' & Hi & Hheld).
    { unfold holding, permits in Hsum. lia. }
    exists i. intros a. rewrite Hi. cbn.
    pose proof (Forall_lookup_1 _ _ _ _ Hall Hi) as Hd.
    unfold disciplined, step_task in *.
    destruct (code t') as [?|?|k|k|X q k]; cbn in *; try lia; try done;
      destruct Hd as [? _]; lia.
  - apply list_elem_of_lookup in Ht as [i Hi]. exists i. intros a. rewrite Hi. cbn.
    unfold finished, step_task in *.
    by destruct (code t) as [?|?|k|k|X q k].
Qed.
End requests_in_flight.

(** X9: the requests to the routes obey the same bound as the calls of
    the repository; the route for deletion takes the permit twice, once
    for its lookup and once for its deletion, never both at a time. *)
Theorem gate_bounds_requests (rs : list route) (es : list event) (s : system) :
  steps (serve rs) es = Some s →
  sem_value s + holding s = 50 ∧
  Forall (λ t, held t ≤ 1 ∧
               (at_storage t = true → held t = 1) ∧
               (finished t = true → held t = 0)) (tasks s) ∧
  inside s ≤ 50 ∧
  executing s ≤ 50.
Proof.
  intros Hsteps.
  destruct (gate_invariant_steps _ _ _ (gate_invariant_serve rs) Hsteps)
    as [Hsum Hall].
  unfold permits in Hsum. split_and!; [done| | |].
  - eapply Forall_impl; [exact Hall|]. apply disciplined_held.
  - pose proof (inside_le_holding s). lia.
  - pose proof (executing_le_holding _ Hall). lia.
Qed.

(** X10: the gate never brings the requests to a standstill: as long
    as one of them has not finished, there is a task the event loop can
    resume, whatever the storage engine answers. *)
Theorem requests_never_stuck (rs : list route) (es : list event) (s : system) (t : task) :
  steps (serve rs) es = Some s →
  t ∈ tasks s → finished t = false →
  ∃ i, ∀ a, is_Some (step s (mkEvent i a)).
Proof.
  intros Hsteps. apply gate_invariant_enabled.
  exact (gate_invariant_steps _ _ _ (gate_invariant_serve rs) Hsteps).
Qed.

(** ** Every request comes to an end *)

Section bounded_runs.
Lemma within_mono {A} (p : prog A) k k' : within k p → k ≤ k' → within k' p.
Proof.
  revert k k'. induction p as [a|e|q IH|q IH|X c f IH]; intros k k'; simpl; [done..| | |].
  - destruct k as [|k]; [done|]. intros Hk Hle. destruct k' as [|k']; [lia|].
    apply (IH k); [done|lia].
  - destruct k as [|k]; [done|]. intros Hk Hle. destruct k' as [|k']; [lia|].
    apply (IH k); [done|lia].
  - destruct k as [|k]; [done|]. intros Hk Hle. destruct k' as [|k']; [lia|].
    intros r. apply (IH r k); [done|lia].
Qed.

Lemma within_on_exit {A B} (p : prog A) (normal : A → prog B)
    (exceptional : exn → prog B) k m :
  within k p →
  (∀ a, within m (normal a)) →
  (∀ e, within m (exceptional e)) →
  within (k + m) (on_exit p normal exceptional).
Proof.
  intros Hp Hn Hx. revert k Hp.
  induction p as [a|e|q IH|q IH|X c f IH]; intros k; simpl.
  - intros _. apply (within_mono _ m); [done|lia].
  - intros _. apply (within_mono _ m); [done|lia].
  - destruct k as [|k]; [done|]. apply IH.
  - destruct k as [|k]; [done|]. apply IH.
  - destruct k as [|k]; [done|]. intros Hf r. by apply IH.
Qed.

Lemma within_bind {A B} (p : prog A) (f : A → prog B) k m :
  within k p → (∀ a, within m (f a)) → within (k + m) (p ≫= f).
Proof. intros Hp Hf. by apply within_on_exit. Qed.

Lemma within_fmap {A B} (f : A → B) (p : prog A) k : within k p → within k (f <$> p).
Proof.
  intros Hp. apply (within_mono _ (k + 0)); [|lia]. by apply within_on_exit.
Qed.

Lemma within_await {X} (q : storageE X) : within 1 (await q).
Proof. by intros [e|x]. Qed.

(** A session block: two steps more than its body. *)
Lemma within_session_begin {A} (body : prog A) k :
  within k body → within (1 + (k + 1)) (async_with_session_begin body).
Proof.
  intros Hb. unfold async_with_session_begin.
  apply within_bind; [apply within_await|]. intros _.
  apply within_on_exit; [done|..]; intros ?;
    apply (within_bind _ _ 1 0); by try apply within_await.
Qed.

(** A semaphore block: two steps more than its body. *)
Lemma within_semaphore {A} (body : prog A) k :
  within k body → within (S (k + 1)) (async_with_semaphore body).
Proof. intros Hb. simpl. by apply within_on_exit. Qed.

Lemma within_guarded_write {A} (q : storageE A) :
  within 8 (async_with_semaphore
              (try_except
                 (async_with_session_begin (await q) ;; Ret true)
                 (async_with_session_begin (await SessionRollback) ;; Ret false))).
Proof.
  apply (within_semaphore _ 6), (within_on_exit _ _ _ 3 3); [|done|].
  - apply (within_bind _ _ 3 0); [|done]. apply (within_session_begin _ 1), within_await.
  - intros _. apply (within_bind _ _ 3 0); [|done].
    apply (within_session_begin _ 1), within_await.
Qed.

Lemma within_create_book title author genre : within 8 (create_book title author genre).
Proof. apply within_guarded_write. Qed.

Lemma within_update_book id fields : within 8 (update_book id fields).
Proof.
  unfold update_book. destruct (binds_twice fields); [done|]. apply within_guarded_write.
Qed.

Lemma within_get_books : within 5 get_books.
Proof.
  apply (within_semaphore _ 3), (within_bind _ _ 3 0); [|done].
  apply (within_session_begin _ 1), (within_bind _ _ 1 0); [apply within_await|done].
Qed.

Lemma within_get_book_by_id id : within 5 (get_book_by_id id).
Proof.
  apply (within_semaphore _ 3), (within_bind _ _ 3 0); [|done].
  apply (within_session_begin _ 1), (within_bind _ _ 1 0); [apply within_await|].
  by intros [|b [|b' bs]].
Qed.

Lemma within_delete_book book : within 5 (delete_book book).
Proof.
  apply (within_semaphore _ 3), (within_bind _ _ 3 0); [|done].
  apply (within_session_begin _ 1), within_await.
Qed.

Lemma within_handler r : within 10 (handler r).
Proof.
  destruct r; apply within_fmap.
  - apply (within_mono _ (5 + 0)); [|lia].
    apply within_bind; [apply within_get_book_by_id|done].
  - apply (within_mono _ (5 + 0)); [|lia].
    apply within_bind; [apply within_get_books|done].
  - apply (within_mono _ (8 + 0)); [|lia].
    apply within_bind; [apply within_create_book|done].
  - apply (within_mono _ (8 + 0)); [|lia].
    apply within_bind; [apply within_update_book|done].
  - apply (within_bind _ _ 5 5); [apply within_get_book_by_id|]. intros book.
    apply (within_bind _ _ 5 0); [apply within_delete_book|done].
Qed.

Lemma step_task_within v a t v' t' k :
  within k (code t) → step_task v a t = Some (v', t') →
  ∃ k', k = S k' ∧ within k' (code t').
Proof.
  unfold step_task. destruct (code t) as [?|?|q|q|X c f]; simpl; try done.
  - destruct k as [|k]; [done|]. destruct v; [done|]. intros ? [= <- <-]. by exists k.
  - destruct k as [|k]; [done|]. intros ? [= <- <-]. by exists k.
  - destruct k as [|k]; [done|]. intros Hf [= <- <-]. exists k. split; [done|apply Hf].
Qed.

(** The steps left to the tasks bound the length of a run. *)
Lemma steps_bounded ks s es s' :
  Forall2 (λ k t, within k (code t)) ks (tasks s) →
  steps s es = Some s' →
  length es ≤ sum_list_with (λ k, k) ks.
Proof.
  revert ks s. induction es as [|e es IH]; intros ks s Hks; simpl; [lia|].
  unfold step.
  destruct (tasks s !! who e) as [t|] eqn:Ht; [|done]. simpl.
  destruct (step_task (sem_value s) (answer e) t) as [[v t']|] eqn:Hstep; [|done].
  simpl. intros Hrest.
  destruct (Forall2_lookup_r _ _ _ _ _ Hks Ht) as (k & Hk & Hw).
  destruct (step_task_within _ _ _ _ _ _ Hw Hstep) as (k' & -> & Hw').
  specialize (IH (<[who e := k']> ks) (mkSystem v (<[who e := t']> (tasks s)))
               (Forall2_insert _ _ _ _ _ _ Hks Hw') Hrest).
  pose proof (sum_list_with_insert (λ k, k) ks (who e) (S k') k' Hk) as Hsum.
  cbv beta in Hsum. cbn [length]. lia.
Qed.
End bounded_runs.

(** X11: every request comes to an end: a run of the event loop over
    the requests takes at most ten steps for each of them, whatever the
    storage engine answers. *)
Theorem requests_come_to_an_end (rs : list route) (es : list event) (s : system) :
  steps (serve rs) es = Some s → length es ≤ 10 * length rs.
Proof.
  intros Hsteps.
  assert (∀ n, sum_list_with (λ k, k) (replicate n 10) = 10 * n) as Hsum.
  { intros n. induction n as [|n IH]; [done|]. cbn [replicate sum_list_with]. lia. }
  rewrite <- Hsum.
  apply (steps_bounded (replicate (length rs) 10) (serve rs) es s); [|done].
  unfold serve. cbn [tasks]. clear.
  induction rs as [|r rs IH]; simpl; constructor; [apply within_handler|done].
Qed.

(** ** The further properties at sample inputs *)

Lemma shelf_max_rowid_free : max_rowid_free (books shelf).
Proof.
  intros r [->|Hr]%elem_of_cons; [by vm_compute|by apply elem_of_nil in Hr].
Qed.

Lemma create_book_then_get_books_witness :
  ∃ w1 n w2,
    run (create_book (Some "Emma") (Some "Austen") (Some "Novel"))%string shelf
      = (Returned true, w1) ∧
    run get_books w1 =
      (Returned ((load <$> books shelf) ++
                 [mkBook (Some n) (Some "Emma") (Some "Austen") (Some "Novel")]%string), w2) ∧
    (∀ r, r ∈ books shelf → (row_id r < n)%Z) ∧
    (n ≤ 2 ^ 63 - 1)%Z.
Proof.
  eexists.
  assert (run (create_book (Some "Emma") (Some "Austen") (Some "Novel"))%string shelf
          = (Returned true, _)) as Hrun by (vm_compute; reflexivity).
  destruct (create_book_then_get_books _ _ _ shelf _ shelf_open shelf_max_rowid_free
              Hrun eq_refl)
    as (n & w2 & H).
  exists n, w2. split; [exact Hrun|exact H].
Defined.

Lemma operation_returns_permit_witness :
  (run (operation (DeleteBook None)) shelf).1 ≠ Blocked ∧
  semaphore (run (operation (DeleteBook None)) shelf).2 = semaphore shelf.
Proof. apply (operation_returns_permit (DeleteBook None) shelf), shelf_open. Defined.

Lemma update_book_true_or_false_witness :
  ∃ w', run (update_book 1 {[ "genre"%string := Some "Epic"%string ]}) failing_shelf
          = (Returned false, w') ∧
        books w' = books failing_shelf.
Proof.
  destruct (update_book_true_or_false 1 {[ "genre"%string := Some "Epic"%string ]}
              failing_shelf)
    as (b & w' & Hrun & Hb & _ & _ & Hsame & _).
  - unfold failing_shelf, permits. simpl. lia.
  - by vm_compute.
  - assert (b = false) as -> by (rewrite Hb; by vm_compute).
    exists w'. split; [exact Hrun|]. by apply Hsame.
Defined.

Lemma get_book_by_id_finds_stored_witness :
  ∃ w', run (get_book_by_id (row_id dune)) shelf = (Returned (Some (load dune)), w').
Proof.
  apply (get_book_by_id_finds_stored shelf dune).
  - exact shelf_open.
  - reflexivity.
  - apply NoDup_singleton.
  - left.
Defined.

Lemma reads_raise_on_fault_witness :
  ∃ w1 w2,
    run (get_book_by_id 1) failing_shelf = (Raised StorageFault, w1) ∧
    run get_books failing_shelf = (Raised StorageFault, w2) ∧
    semaphore w1 = semaphore failing_shelf ∧ semaphore w2 = semaphore failing_shelf.
Proof.
  apply (reads_raise_on_fault 1 failing_shelf).
  - unfold failing_shelf, permits. simpl. lia.
  - reflexivity.
Defined.

Lemma delete_book_unmatched_witness :
  ∃ w1 w2 w3 w4,
    run (get_book_by_id 1) shelf = (Returned (Some (load dune)), w1) ∧
    run (get_book_by_id 1) w1 = (Returned (Some (load dune)), w2) ∧
    run (delete_book (Some (load dune))) w2 = (Returned true, w3) ∧
    run (delete_book (Some (load dune))) w3 = (Returned true, w4) ∧
    trace w4 = trace w3 ++ [mkExecuted (SqlDelete 1) 0] ∧
    books w4 = books w3.
Proof.
  eexists. eexists.
  assert (run (get_book_by_id 1) shelf = (Returned (Some (load dune)), _)) as Hget
    by (vm_compute; reflexivity).
  match type of Hget with _ = (_, ?w1) =>
    assert (run (get_book_by_id 1) w1 = (Returned (Some (load dune)), _)) as Hget'
      by (vm_compute; reflexivity)
  end.
  destruct (delete_book_unmatched 1 (load dune) (load dune) shelf _ _
              shelf_open eq_refl Hget Hget')
    as (w3 & w4 & H).
  exists w3, w4. split; [exact Hget|]. split; [exact Hget'|exact H].
Defined.

Lemma delete_route_removes_stored_witness :
  ∃ w',
    run (Api.delete_book (row_id dune)) shelf = (Returned (), w') ∧
    books w' = sql_delete (row_id dune) (books shelf) ∧
    (dune ∉ books w') ∧
    ∀ x, x ∈ books shelf → row_id x ≠ row_id dune → x ∈ books w'.
Proof.
  apply (delete_route_removes_stored shelf dune).
  - exact shelf_open.
  - reflexivity.
  - apply NoDup_singleton.
  - left.
Defined.

Lemma gate_bounds_requests_witness :
  ∃ s, steps (serve purge) rush = Some s ∧
       sem_value s = 0 ∧ inside s = 50 ∧
       sem_value s + holding s = 50 ∧ inside s ≤ 50.
Proof.
  destruct (steps (serve purge) rush) as [s|] eqn:Hs; [|by vm_compute in Hs].
  exists s. split; [done|].
  destruct (gate_bounds_requests purge rush s Hs) as (Hsum & _ & Hin & _).
  assert (Some (sem_value s, inside s) = Some (0, 50)) as [= Hv He].
  { change (Some (sem_value s, inside s))
      with ((λ s, (sem_value s, inside s)) <$> Some s).
    rewrite <- Hs. by vm_compute. }
  split_and!; [exact Hv|exact He|exact Hsum|exact Hin].
Defined.

Lemma requests_never_stuck_witness :
  ∃ s i, steps (serve purge) rush = Some s ∧
         ∀ a, is_Some (step s (mkEvent i a)).
Proof.
  destruct (steps (serve purge) rush) as [s|] eqn:Hs; [|by vm_compute in Hs].
  assert (Some (finished <$> tasks s !! 50) = Some (Some false)) as [= Hfin].
  { change (Some (finished <$> tasks s !! 50))
      with ((λ s, finished <$> tasks s !! 50) <$> Some s).
    rewrite <- Hs. by vm_compute. }
  destruct (tasks s !! 50) as [t|] eqn:Ht; [|done]. injection Hfin as Hfin.
  destruct (requests_never_stuck purge rush s t Hs) as [i Hi].
  - by eapply list_elem_of_lookup_2.
  - exact Hfin.
  - by exists s, i.
Defined.

Lemma requests_come_to_an_end_witness :
  ∃ s, steps (serve purge) rush = Some s ∧ length rush ≤ 10 * length purge.
Proof.
  destruct (steps (serve purge) rush) as [s|] eqn:Hs; [|by vm_compute in Hs].
  exists s. split; [done|]. exact (requests_come_to_an_end purge rush s Hs).
Defined.

Lemma get_books_lists_table_witness :
  ∃ w',
    run get_books shelf = (Returned (load <$> books shelf), w') ∧
    trace w' = trace shelf ++ [mkExecuted (SqlSelect None) (length (books shelf))] ∧
    books w' = books shelf.
Proof.
  apply (get_books_lists_table shelf).
  - exact shelf_open.
  - reflexivity.
Defined.

Lemma create_book_then_delete_book_witness :
  ∃ w1 n w2,
    run (create_book (Some "Emma") (Some "Austen") (Some "Novel"))%string shelf
      = (Returned true, w1) ∧
    books w1 = books shelf ++ [mkRow n (Some "Emma") (Some "Austen") (Some "Novel")]%string ∧
    run (delete_book (Some (mkBook (Some n) (Some "Emma") (Some "Austen") (Some "Novel"))%string)) w1
      = (Returned true, w2) ∧
    books w2 = books shelf.
Proof.
  eexists.
  assert (run (create_book (Some "Emma") (Some "Austen") (Some "Novel"))%string shelf
          = (Returned true, _)) as Hrun by (vm_compute; reflexivity).
  destruct (create_book_then_delete_book _ _ _ shelf _ shelf_open Hrun eq_refl)
    as (n & w2 & H).
  exists n, w2. split; [exact Hrun|exact H].
Defined.

Lemma update_book_twice_witness :
  ∃ w1 w2,
    run (update_book 1 {[ keyword Genre := Some "Epic"%string ]}) shelf = (Returned true, w1) ∧
    run (update_book 1 {[ keyword Genre := Some "Epic"%string ]}) w1 = (Returned true, w2) ∧
    books w2 = books w1.
Proof.
  apply (update_book_twice 1 {[ keyword Genre := Some "Epic"%string ]} shelf).
  - exact shelf_open.
  - reflexivity.
  - exact (consumed_singleton Genre (Some "Epic"%string)).
  - apply insert_non_empty.
  - reflexivity.
Defined.
